(** * ResuMaster AI: the vector PDF layout engine of [src/App.tsx],
      the Gemini service and the editor handlers, as a shallow embedding.

    Text is a [list ascii] (8-bit code units); lengths on the page are
    [Z] in hundredths of a PDF point, so the A4 page of the source
    (595.28 x 841.89) and its 50 pt margin are exact integers. *)

From Stdlib Require Import String Ascii List ZArith Lia Bool.
Import ListNotations.
Open Scope Z_scope.
Set Warnings "-register-all".


Definition str := list ascii.

(** String literals as code-unit lists. *)
Definition s_ (s : string) : str := list_ascii_of_string s.

(** ** JavaScript string primitives *)

(** [\s] of a JS regular expression and the set [String.prototype.trim]
    removes, restricted to 8-bit code units: TAB, LF, VT, FF, CR, SPACE, NBSP. *)
Definition is_ws (c : ascii) : bool :=
  let n := nat_of_ascii c in
  ((9 <=? n)%nat && (n <=? 13)%nat) || (n =? 32)%nat || (n =? 160)%nat.

(** Line terminators, which [.] of a JS regular expression does not match. *)
Definition is_line_term (c : ascii) : bool :=
  let n := nat_of_ascii c in (n =? 10)%nat || (n =? 13)%nat.

Fixpoint trim_start (s : str) : str :=
  match s with
  | [] => []
  | c :: r => if is_ws c then trim_start r else s
  end.

(** [s.trim()] *)
Definition trim (s : str) : str := rev (trim_start (rev (trim_start s))).

Fixpoint starts_with (p s : str) : bool :=
  match p, s with
  | [], _ => true
  | c :: p', d :: s' => Ascii.eqb c d && starts_with p' s'
  | _ :: _, [] => false
  end.

(** [s.endsWith(p)] *)
Definition ends_with (p s : str) : bool := starts_with (rev p) (rev s).

(** [s.replace(p, '')] with a string pattern: the first occurrence only. *)
Fixpoint replace_first (p s : str) : str :=
  if starts_with p s then skipn (length p) s
  else match s with
       | [] => []
       | c :: r => c :: replace_first p r
       end.

(** [s.split('\n')] *)
Fixpoint split_nl_go (acc : str) (s : str) : list str :=
  match s with
  | [] => [rev acc]
  | c :: r =>
      if (nat_of_ascii c =? 10)%nat then rev acc :: split_nl_go [] r
      else split_nl_go (c :: acc) r
  end.

Definition split_nl (s : str) : list str := split_nl_go [] s.

(** [s.split(/(\s+)/)]: the non-blank pieces and, captured between them,
    the whitespace runs. [in_ws] says whether [acc] is a whitespace run. *)
Fixpoint split_ws_go (in_ws : bool) (acc : str) (s : str) : list str :=
  match s with
  | [] => if in_ws then [rev acc; []] else [rev acc]
  | c :: r =>
      if is_ws c then
        if in_ws then split_ws_go true (c :: acc) r
        else rev acc :: split_ws_go true [c] r
      else
        if in_ws then rev acc :: split_ws_go false [c] r
        else split_ws_go false (c :: acc) r
  end.

Definition split_ws (s : str) : list str := split_ws_go false [] s.

(** [s.toLowerCase()] on 8-bit ASCII letters. *)
Definition lower_char (c : ascii) : ascii :=
  let n := nat_of_ascii c in
  if ((65 <=? n)%nat && (n <=? 90)%nat) then ascii_of_nat (n + 32) else c.

Definition to_lower (s : str) : str := map lower_char s.

(** ** Inline span splitter

    [text.split(RE).filter(s => s !== '')] where RE is the global regular
    expression with one capture group: two stars, a lazy [.*?], two stars. *)

Definition star : ascii := "*"%char.

(** After an opening [**]: the lazy [.*?] followed by [\*\*]; returns the
    enclosed text and the rest of the input. *)
Fixpoint lazy_close (s : str) : option (str * str) :=
  match s with
  | [] => None
  | c :: r =>
      match r with
      | d :: r' => if Ascii.eqb c star && Ascii.eqb d star then Some ([], r')
                   else if is_line_term c then None
                   else match lazy_close r with
                        | Some (p, q) => Some (c :: p, q)
                        | None => None
                        end
      | [] => None
      end
  end.

(** The pieces of JS [split] with one capture group: text before a match,
    the captured match, ..., the tail. The regex is tried at each position
    from left to right; [fuel] bounds the scan by the input length. *)
Fixpoint split_bold_go (fuel : nat) (acc : str) (s : str) : list str :=
  match fuel with
  | O => [rev acc ++ s]
  | S f =>
      match s with
      | [] => [rev acc]
      | c :: r =>
          let fallback := split_bold_go f (c :: acc) r in
          match r with
          | d :: r' =>
              if Ascii.eqb c star && Ascii.eqb d star then
                match lazy_close r' with
                | Some (p, q) =>
                    rev acc :: ([star; star] ++ p ++ [star; star])
                            :: split_bold_go f [] q
                | None => fallback
                end
              else fallback
          | [] => fallback
          end
      end
  end.

Definition segments (text : str) : list str :=
  filter (fun s => negb (match s with [] => true | _ => false end))
         (split_bold_go (S (length text)) [] text).

(** [seg.startsWith('**') && seg.endsWith('**')] *)
Definition is_bold_seg (seg : str) : bool :=
  starts_with [star; star] seg && ends_with [star; star] seg.

(** [seg.slice(2, -2)] *)
Definition slice_2_m2 (seg : str) : str :=
  skipn 2 (firstn (length seg - 2) seg).

Definition clean_seg (seg : str) : str :=
  if is_bold_seg seg then slice_2_m2 seg else seg.

(** The emitted spans (text, isBold) of a line. *)
Definition spans (text : str) : list (str * bool) :=
  map (fun seg => (clean_seg seg, is_bold_seg seg)) (segments text).

(** ** Page geometry, fonts and the drawing log *)

Inductive font := Helvetica | HelveticaBold.

(** [rgb(r, g, b)] with components in tenths. *)
Record color := rgb { red : Z; green : Z; blue : Z }.

Definition black : color := rgb 0 0 0.
Definition muted : color := rgb 3 3 3.
Definition section_blue : color := rgb 1 2 4.
Definition rule_grey : color := rgb 8 8 8.

Inductive align := AlignLeft | AlignCenter.

(** [page.getSize()] of [addPage([595.28, 841.89])] and [margin = 50]. *)
Definition page_width : Z := 59528.
Definition page_height : Z := 84189.
Definition margin : Z := 5000.

(** What the export asks of pdf-lib, in order. *)
Inductive event :=
| AddPage
| DrawText (txt : str) (x y size : Z) (f : font) (col : color)
| DrawLine (y : Z).

(** The layout cursor of [handleDownloadPDF]: [currentY] and the document
    built so far (the current [page] is the last one added). *)
Record layout := mk_layout { currentY : Z; log : list event }.

Definition emit (st : layout) (e : event) : layout :=
  mk_layout (currentY st) (log st ++ [e]).

Definition set_y (st : layout) (y : Z) : layout := mk_layout y (log st).

Definition add_page (st : layout) : layout :=
  set_y (emit st AddPage) (page_height - margin).

(** [if (currentY < margin + 20) { page = pdfDoc.addPage(...); currentY = height - margin; }] *)
Definition paginate (st : layout) : layout :=
  if currentY st <? margin + 2000 then add_page st else st.

(** A measured token of the wrap: [{ text, isBold, width }]. *)
Record token := mk_tok { ttext : str; tbold : bool; twidth : Z }.

(** [word.trim() !== ''] *)
Definition nonblank (w : str) : bool :=
  match trim w with [] => false | _ => true end.

Definition line_width (l : list token) : Z :=
  fold_right (fun t acc => twidth t + acc) 0 l.

(** The overflow test shared by [drawRichText] and the bullet branch:
    [currentLineWidth + wordWidth > maxWidth && word.trim() !== '']. *)
Definition breaks (maxWidth curW : Z) (t : token) : bool :=
  (maxWidth <? curW + twidth t) && nonblank (ttext t).

(** The greedy wrap of [drawRichText]: [lines] starts as [[[]]]; [done_]
    holds all lines but the last, [cur] the last one. *)
Fixpoint wrap_go (maxWidth : Z) (done_ : list (list token)) (cur : list token)
    (curW : Z) (ts : list token) : list (list token) :=
  match ts with
  | [] => done_ ++ [cur]
  | t :: r =>
      if breaks maxWidth curW t
      then wrap_go maxWidth (done_ ++ [cur]) [t] (twidth t) r
      else wrap_go maxWidth done_ (cur ++ [t]) (curW + twidth t) r
  end.

Definition wrap (maxWidth : Z) (ts : list token) : list (list token) :=
  wrap_go maxWidth [] [] 0 ts.

Definition line_advance (size : Z) : Z := size * 3 / 2.      (* size * 1.5 *)
Definition block_gap (size : Z) : Z := size * 2 / 5.         (* size * 0.4 *)
Definition bullet_advance (size : Z) : Z := size * 17 / 10.  (* size * 1.7 *)

Section Layout.

(** [font.widthOfTextAtSize(text, size)], pdf-lib's metric of the embedded
    standard fonts. *)
Variable widthOfTextAtSize : font -> Z -> str -> Z.

(** The tokens of a text: its spans, each split on whitespace runs and
    measured with the span's font. *)
Definition tokens_of (defaultFont : font) (size : Z) (text : str) : list token :=
  flat_map (fun seg =>
              let isBold := is_bold_seg seg in
              let cleanText := clean_seg seg in
              let f := if isBold then HelveticaBold else defaultFont in
              map (fun word => mk_tok word isBold (widthOfTextAtSize f size word))
                  (split_ws cleanText))
           (segments text).

Record rich_opts := mk_opts
  { o_size : Z; o_font : font; o_color : color; o_align : align }.

Fixpoint draw_runs (o : rich_opts) (cursorX : Z) (st : layout)
    (l : list token) : layout :=
  match l with
  | [] => st
  | seg :: r =>
      let f := if tbold seg then HelveticaBold else o_font o in
      draw_runs o (cursorX + twidth seg)
        (emit st (DrawText (ttext seg) cursorX (currentY st) (o_size o) f (o_color o))) r
  end.

(** One wrapped line of [drawRichText]: pagination check, placement, advance. *)
Definition place_line (o : rich_opts) (st : layout) (lineSegments : list token) : layout :=
  let st1 := paginate st in
  let fullLineWidth := line_width lineSegments in
  let startX := match o_align o with
                | AlignCenter => (page_width - fullLineWidth) / 2
                | AlignLeft => margin
                end in
  let st2 := draw_runs o startX st1 lineSegments in
  set_y st2 (currentY st2 - line_advance (o_size o)).

Definition rich_max_width : Z := page_width - margin * 2.

Definition drawRichText (o : rich_opts) (text : str) (st : layout) : layout :=
  let lines := wrap rich_max_width (tokens_of (o_font o) (o_size o) text) in
  let st' := fold_left (place_line o) lines st in
  set_y st' (currentY st' - block_gap (o_size o)).

(** ** The bullet branch of [handleDownloadPDF] *)

Definition bullet_size : Z := 1000.
Definition bullet_margin : Z := margin + 1500.
Definition bullet_max_width : Z := page_width - bullet_margin - margin.

(** The glyph ['•'], code 149 of the WinAnsi encoding of the standard fonts. *)
Definition bullet_glyph : str := [ascii_of_nat 149].

Definition tok_font (t : token) : font :=
  if tbold t then HelveticaBold else Helvetica.

(** [lineWords.forEach(lw => { page.drawText(...); cX += lw.font.widthOfTextAtSize(lw.text, size); })] *)
Fixpoint draw_line_words (cX : Z) (st : layout) (lw : list token) : layout :=
  match lw with
  | [] => st
  | t :: r =>
      draw_line_words (cX + widthOfTextAtSize (tok_font t) bullet_size (ttext t))
        (emit st (DrawText (ttext t) cX (currentY st) bullet_size (tok_font t) black)) r
  end.

(** The body of the overflow test in the bullet loop: draw the pending
    words, advance, then check the remaining height. *)
Definition bullet_flush (st : layout) (lw : list token) : layout :=
  let st1 := draw_line_words bullet_margin st lw in
  paginate (set_y st1 (currentY st1 - line_advance bullet_size)).

Fixpoint bullet_words (st : layout) (lineWords : list token) (currentW : Z)
    (ts : list token) : layout * list token :=
  match ts with
  | [] => (st, lineWords)
  | w :: r =>
      if breaks bullet_max_width currentW w
      then bullet_words (bullet_flush st lineWords) [w] (twidth w) r
      else bullet_words st (lineWords ++ [w]) (currentW + twidth w) r
  end.

Definition draw_bullet (bulletContent : str) (st : layout) : layout :=
  let st1 := emit st (DrawText bullet_glyph margin (currentY st) 1200 Helvetica black) in
  let '(st2, lineWords) :=
    bullet_words st1 [] 0 (tokens_of Helvetica bullet_size bulletContent) in
  let st3 := draw_line_words bullet_margin st2 lineWords in
  set_y st3 (currentY st3 - bullet_advance bullet_size).

(** ** The line loop of [handleDownloadPDF] *)

Definition title_opts : rich_opts := mk_opts 2200 HelveticaBold black AlignCenter.
Definition section_opts : rich_opts := mk_opts 1200 HelveticaBold section_blue AlignLeft.
Definition subsection_opts : rich_opts := mk_opts 1100 HelveticaBold black AlignLeft.

(** [const isContact = i > 0 && lines[i-1].startsWith('# ')] *)
Definition is_contact (lines : list str) (i : nat) : bool :=
  (0 <? i)%nat && starts_with (s_ "# ") (nth (i - 1) lines []).

Definition body_opts (isContact : bool) : rich_opts :=
  mk_opts 1000 Helvetica (if isContact then muted else black)
          (if isContact then AlignCenter else AlignLeft).

Definition process_line (lines : list str) (i : nat) (st : layout) : layout :=
  let line := trim (nth i lines []) in
  match line with
  | [] => set_y st (currentY st - 800)
  | _ =>
    if starts_with (s_ "# ") line then
      let st1 := drawRichText title_opts (replace_first (s_ "# ") line) st in
      set_y st1 (currentY st1 - 1000)
    else if starts_with (s_ "## ") line then
      let st1 := set_y st (currentY st - 1200) in
      let st2 := drawRichText section_opts (replace_first (s_ "## ") line) st1 in
      let st3 := emit st2 (DrawLine (currentY st2 + 1400)) in
      set_y st3 (currentY st3 - 600)
    else if starts_with (s_ "### ") line then
      drawRichText subsection_opts (replace_first (s_ "### ") line) st
    else if starts_with (s_ "- ") line || starts_with (s_ "* ") line then
      draw_bullet (skipn 2 line) st
    else
      drawRichText (body_opts (is_contact lines i)) line st
  end.

Definition initial_layout : layout := add_page (mk_layout 0 []).

(** The export pass over [contentToExport.split('\n')]. *)
Definition export_pass (content : str) : layout :=
  let lines := split_nl content in
  fold_left (fun st i => process_line lines i st) (seq 0 (length lines)) initial_layout.

End Layout.

(** ** Editor state of [App] *)

(** [interface OptimizationResult] *)
Record opt_result := mk_result
  { optimizedContent : str; keyChanges : list str;
    suggestedSkills : list str; atsScore : Z }.

Inductive seniority := ENTRY | JUNIOR | MID | SENIOR | LEAD | EXECUTIVE.

(** [interface ResumeData]; the optional fields are [option]s. *)
Record resume_data := mk_data
  { d_content : str; d_targetTitle : str; d_seniority : seniority;
    d_jobDescription : option str; d_additionalContext : option str }.

(** A settled promise. *)
Inductive outcome (A : Type) := Resolved (a : A) | Rejected (message : str).
Arguments Resolved {A} a.
Arguments Rejected {A} message.

(** The [useState] cells of [App] (both versions of the component). *)
Record ui := mk_ui
  { step : Z; loading : bool; fileParsing : bool; error : option str;
    inputContent : str; targetTitle : str; jobDescription : str;
    seniorityLevel : seniority; context : str; result : option opt_result }.

Definition setStep (v : Z) (s : ui) : ui :=
  mk_ui v (loading s) (fileParsing s) (error s) (inputContent s) (targetTitle s)
        (jobDescription s) (seniorityLevel s) (context s) (result s).
Definition setLoading (v : bool) (s : ui) : ui :=
  mk_ui (step s) v (fileParsing s) (error s) (inputContent s) (targetTitle s)
        (jobDescription s) (seniorityLevel s) (context s) (result s).
Definition setFileParsing (v : bool) (s : ui) : ui :=
  mk_ui (step s) (loading s) v (error s) (inputContent s) (targetTitle s)
        (jobDescription s) (seniorityLevel s) (context s) (result s).
Definition setError (v : option str) (s : ui) : ui :=
  mk_ui (step s) (loading s) (fileParsing s) v (inputContent s) (targetTitle s)
        (jobDescription s) (seniorityLevel s) (context s) (result s).
Definition setInputContent (v : str) (s : ui) : ui :=
  mk_ui (step s) (loading s) (fileParsing s) (error s) v (targetTitle s)
        (jobDescription s) (seniorityLevel s) (context s) (result s).
Definition setResult (v : option opt_result) (s : ui) : ui :=
  mk_ui (step s) (loading s) (fileParsing s) (error s) (inputContent s) (targetTitle s)
        (jobDescription s) (seniorityLevel s) (context s) v.

Definition is_empty (s : str) : bool := match s with [] => true | _ => false end.

(** [a || b] on strings. *)
Definition or_default (a b : str) : str := if is_empty a then b else a.

(** ** [handleOptimize] *)

Section Optimize.

(** [geminiService.optimizeResume] as the handler sees it: a rejection, or
    the parsed JSON value it resolves with, which is [null] ([None]) or an
    [OptimizationResult] object ([Some r]). An object lacking
    [optimizedContent] would put [undefined] into the editor, which this
    state does not represent. *)
Variable optimizeResume : resume_data -> outcome (option opt_result).

(** The [TypeError] message of reading [optimizedContent] off [null]. *)
Definition null_read_error : str :=
  s_ "Cannot read properties of null (reading 'optimizedContent')".

(** [src/App.tsx]: [setResult(optimized)] runs before
    [optimized.optimizedContent] is read, so a [null] answer is stored and
    then the read throws into the [catch]. *)
Definition handleOptimize (s : ui) : ui :=
  if is_empty (trim (inputContent s)) || is_empty (trim (targetTitle s)) then
    setError (Some (s_ "Resume text and target job title are required.")) s
  else
    let s1 := setError None (setLoading true s) in
    let s2 :=
      match optimizeResume (mk_data (inputContent s) (targetTitle s) (seniorityLevel s)
                                    (Some (jobDescription s)) (Some (context s))) with
      | Resolved (Some optimized) =>
          setStep 2 (setInputContent (optimizedContent optimized)
                                     (setResult (Some optimized) s1))
      | Resolved None =>
          (* [err.message] is non-empty here, so the fallback is not used *)
          setError (Some null_read_error) (setResult None s1)
      | Rejected m =>
          setError (Some (or_default m (s_ "Optimization failed. Please try again."))) s1
      end in
    setLoading false s2.

(** The other version of the component ([src/unnamed/part_001]). *)
Definition handleOptimize_v0 (s : ui) : ui :=
  if is_empty (trim (inputContent s)) then
    setError (Some (s_ "Please provide your current resume content.")) s
  else if is_empty (trim (targetTitle s)) then
    setError (Some (s_ "Please specify a target job title.")) s
  else
    let s1 := setError None (setLoading true s) in
    let s2 :=
      match optimizeResume (mk_data (inputContent s) (targetTitle s) (seniorityLevel s)
                                    None (Some (context s))) with
      | Resolved optimized => setStep 2 (setResult optimized s1)
      | Rejected m =>
          setError (Some (or_default m (s_ "An unexpected error occurred."))) s1
      end in
    setLoading false s2.

End Optimize.

(** ** [handleFileUpload] *)

(** An uploaded file: its name and what the decoders make of its bytes
    (pdf.js page texts joined, mammoth's raw text, [TextDecoder().decode]). *)
Record upload := mk_upload
  { fname : str; pdf_text : outcome str; docx_text : outcome str; decoded_text : str }.

(** [src/App.tsx] *)
Definition handleFileUpload (file : option upload) (s : ui) : ui :=
  match file with
  | None => s
  | Some f =>
      let s1 := setError None s in
      let fileName := to_lower (fname f) in
      let extracted :=
        if ends_with (s_ ".pdf") fileName then pdf_text f
        else if ends_with (s_ ".docx") fileName then docx_text f
        else Resolved (decoded_text f) in
      match extracted with
      | Resolved extractedText => setInputContent extractedText s1
      | Rejected _ =>
          setError (Some (s_ "Failed to process file. Ensure it is a valid PDF, DOCX, or text file.")) s1
      end
  end.

(** [src/unnamed/part_001] *)
Definition handleFileUpload_v0 (file : option upload) (s : ui) : ui :=
  match file with
  | None => s
  | Some f =>
      let s1 := setError None (setFileParsing true s) in
      let fileName := to_lower (fname f) in
      let extracted :=
        if ends_with (s_ ".pdf") fileName then pdf_text f
        else if ends_with (s_ ".docx") fileName then docx_text f
        else if ends_with (s_ ".txt") fileName || ends_with (s_ ".md") fileName
        then Resolved (decoded_text f)
        else Rejected (s_ "Unsupported file type. Please upload PDF, DOCX, TXT, or MD.") in
      let checked :=
        match extracted with
        | Resolved t =>
            if is_empty (trim t)
            then Rejected (s_ "The file seems to be empty or contains no extractable text.")
            else Resolved t
        | Rejected m => Rejected m
        end in
      let s2 :=
        match checked with
        | Resolved extractedText => setInputContent extractedText s1
        | Rejected m =>
            setError (Some (or_default m (s_ "Failed to process the file. Please try again or copy-paste the text."))) s1
        end in
      setFileParsing false s2
  end.

(** ** [handleDownloadPDF] *)

Definition contentToExport (s : ui) : str :=
  if step s =? 1 then inputContent s
  else match result s with
       | Some r => or_default (optimizedContent r) (inputContent s)
       | None => inputContent s
       end.

(** [None] is the early [return]; otherwise the document that is saved.
    The widths and runs are those of text pdf-lib can encode in WinAnsi; a
    code unit outside that encoding (a TAB, say) makes pdf-lib throw and the
    export end in its [catch], which this function does not represent. *)
Definition handleDownloadPDF (widthOfTextAtSize : font -> Z -> str -> Z) (s : ui)
    : option layout :=
  let c := contentToExport s in
  if is_empty (trim c) then None else Some (export_pass widthOfTextAtSize c).

(** ** [GeminiService.optimizeResume] *)

(** The value [JSON.parse] returns. *)
Inductive json :=
| JNull
| JBool (b : bool)
| JNum (n : Z)
| JStr (s : str)
| JArr (items : list json)
| JObj (fields : list (str * json)).

(** A response text, represented by what [JSON.parse] makes of it: a
    [SyntaxError] with its message, or a value. *)
Inductive parsed_text := Malformed (syntax_error : str) | Parsed (j : json).

(** [response.text]: falsy ([undefined] or [""]), or a text. *)
Inductive ai_text := NoText | SomeText (p : parsed_text).

(** The settled [ai.models.generateContent(...)] call. *)
Inductive gen_response := CallFailed (message : str) | Responded (text : ai_text).

(** [src/services/geminiService.ts]: [JSON.parse(response.text || "{}")]
    returned [as OptimizationResult]; any exception becomes one fixed error. *)
Definition optimizeResume_svc (r : gen_response) : outcome json :=
  let msg := s_ "Failed to optimize resume. Please check your input and try again." in
  match r with
  | CallFailed _ => Rejected msg
  | Responded NoText => Resolved (JObj [])
  | Responded (SomeText (Malformed _)) => Rejected msg
  | Responded (SomeText (Parsed result)) => Resolved result
  end.

(** [src/unnamed/part_001]: an empty text throws; messages are wrapped. *)
Definition optimizeResume_v0 (r : gen_response) : outcome json :=
  let rethrow m := s_ "Optimization failed: " ++ or_default m (s_ "Unknown error")
                   ++ s_ ". Please try again." in
  match r with
  | CallFailed m => Rejected (rethrow m)
  | Responded NoText => Rejected (rethrow (s_ "No response text received from AI."))
  | Responded (SomeText (Malformed m)) => Rejected (rethrow m)
  | Responded (SomeText (Parsed result)) => Resolved result
  end.

(** The four fields [required] by the response schema. *)
Definition required_fields : list str :=
  [s_ "optimizedContent"; s_ "keyChanges"; s_ "suggestedSkills"; s_ "atsScore"].

Definition has_field (k : str) (j : json) : bool :=
  match j with
  | JObj fs => existsb (fun kv => if list_eq_dec ascii_dec (fst kv) k then true else false) fs
  | _ => false
  end.

Definition has_required_fields (j : json) : bool :=
  forallb (fun k => has_field k j) required_fields.

(** ** A concrete metric for runs: half an em per code unit. *)
Definition mono (f : font) (size : Z) (w : str) : Z :=
  Z.of_nat (length w) * Z.abs size / 2.

(** ** Helvetica's glyph widths

    The advance widths, in thousandths of an em, that the Helvetica AFM
    shipped with pdf-lib gives to the space and the lower-case letters. *)
Definition helvetica_glyph (c : ascii) : option Z :=
  match c with
  | " "%char => Some 278
  | "a"%char => Some 556 | "b"%char => Some 556 | "c"%char => Some 500
  | "d"%char => Some 556 | "e"%char => Some 556 | "f"%char => Some 278
  | "g"%char => Some 556 | "h"%char => Some 556 | "i"%char => Some 222
  | "j"%char => Some 222 | "k"%char => Some 500 | "l"%char => Some 222
  | "m"%char => Some 833 | "n"%char => Some 556 | "o"%char => Some 556
  | "p"%char => Some 556 | "q"%char => Some 556 | "r"%char => Some 333
  | "s"%char => Some 500 | "t"%char => Some 278 | "u"%char => Some 556
  | "v"%char => Some 500 | "w"%char => Some 722 | "x"%char => Some 500
  | "y"%char => Some 500 | "z"%char => Some 500
  | _ => None
  end.

Definition helvetica_known (c : ascii) : bool :=
  match helvetica_glyph c with Some _ => true | None => false end.

(** [Helvetica.widthOfTextAtSize(w, size)] on words of these glyphs with no
    kerning pair between neighbours (so none in a run of one letter), in
    hundredths of a point: the glyph widths summed and scaled by
    [size / 1000]. Glyphs outside the table count as 0 and are never used. *)
Definition helvetica_metric (f : font) (size : Z) (w : str) : Z :=
  fold_right (fun c acc => match helvetica_glyph c with Some x => x | None => 0 end + acc)
             0 w * size / 1000.

(** ** [toggleView] *)

(** [src/App.tsx]: preview to edit; edit to preview syncing the stored
    result with the editor; nothing without a result. *)
Definition toggleView (s : ui) : ui :=
  if step s =? 2 then setStep 1 s
  else match result s with
       | Some r =>
           setStep 2 (setResult (Some (mk_result (inputContent s) (keyChanges r)
                                                 (suggestedSkills r) (atsScore r))) s)
       | None => s
       end.

(** [step] is [1 | 2], and in preview mode the stored result holds the
    editor text. *)
Definition preview_synced (s : ui) : Prop :=
  (step s = 1 \/ step s = 2) /\
  (step s = 2 -> exists r, result s = Some r /\ optimizedContent r = inputContent s).

(** ** Predicates of the layout properties *)

(** Lines joined back with ['\n'], the inverse of [split_nl]. *)
Fixpoint join_lines (l : list str) : str :=
  match l with
  | [] => []
  | [x] => x
  | x :: r => x ++ ascii_of_nat 10 :: join_lines r
  end.

Definition star_free (s : str) : bool := forallb (fun c => negb (Ascii.eqb c star)) s.

Definition no_line_term (s : str) : bool := forallb (fun c => negb (is_line_term c)) s.

(** A text run no lower than the 20 pt threshold above the margin. *)
Definition above_threshold (e : event) : Prop :=
  match e with DrawText _ _ y _ _ _ => margin + 2000 <= y | _ => True end.

Definition bold_run (e : event) : Prop :=
  match e with DrawText _ _ _ _ f _ => f = HelveticaBold | _ => True end.

(** A word run of the bullet branch: at the bullet indent or right of it,
    at the height [y0] where the bullet started or above the threshold. *)
Definition bullet_run (y0 : Z) (e : event) : Prop :=
  match e with
  | DrawText _ x y _ _ _ => bullet_margin <= x /\ (y = y0 \/ margin + 2000 <= y)
  | AddPage => True
  | DrawLine _ => False
  end.

Definition pages_allocated (l : list event) : nat :=
  length (filter (fun e => match e with AddPage => true | _ => false end) l).

Definition is_rejected {A} (o : outcome A) : bool :=
  match o with Rejected _ => true | Resolved _ => false end.

(** ** Concrete inputs *)

Definition nl : ascii := ascii_of_nat 10.

(** The editor in edit mode holding [c]. *)
Definition editing (c : str) : ui := mk_ui 1 false false None c [] [] MID [] None.

(** An 89-letter word, a space and a one-letter word. *)
Definition long_word_text : str := repeat "a"%char 89 ++ s_ " b".

(** Forty-five one-word bullets. *)
Definition bullet_block : str := flat_map (fun _ => s_ "- a" ++ [nl]) (seq 0 45).

(** Eighty-nine blank lines, then a title. *)
Definition low_title_content : str := repeat nl 89 ++ s_ "# A".

(** A space, then a 100-letter word. *)
Definition overlong_text : str := s_ " " ++ repeat "a"%char 100.

Definition contact_lines : list str := split_nl (s_ "# Jane Doe
jane@x.com | 555-1234").

Definition rtf_upload : upload :=
  mk_upload (s_ "Resume.RTF") (Rejected []) (Rejected []) (s_ "Jane Doe").

Definition partial_json : json := JObj [(s_ "optimizedContent", JStr (s_ "# Jane"))].

(** ** Lemmas *)

Lemma line_width_app (a b : list token) :
  line_width (a ++ b) = line_width a + line_width b.
Proof.
  induction a as [|t a IH]; simpl; [reflexivity|]. rewrite IH. lia.
Qed.

Lemma line_width_nonneg (l : list token) :
  Forall (fun t => 0 <= twidth t) l -> 0 <= line_width l.
Proof.
  induction 1; simpl; lia.
Qed.

Lemma split_snoc {A} (pre post l : list A) (t x : A) :
  pre ++ t :: post = l ++ [x] ->
  (post = [] /\ pre = l /\ t = x) \/
  (exists post0, post = post0 ++ [x] /\ l = pre ++ t :: post0).
Proof.
  intros H. destruct post as [|p ps] using rev_ind.
  - left. apply app_inj_tail in H. tauto.
  - right. rewrite app_comm_cons, app_assoc in H.
    apply app_inj_tail in H as [H1 H2]. subst. eauto.
Qed.

(** *** The greedy wrap *)

Definition blank_tok (t : token) : Prop := nonblank (ttext t) = false.

(** Every non-blank token of a line either fits together with what precedes
    it on the line, or starts the line and is followed by blank tokens only. *)
Definition fits_line (maxWidth : Z) (L : list token) : Prop :=
  forall pre t post, L = pre ++ t :: post -> nonblank (ttext t) = true ->
    line_width (pre ++ [t]) <= maxWidth \/ (pre = [] /\ Forall blank_tok post).

(** Each line after the first begins with a token that triggered the
    overflow check against the width of the line before it. *)
Definition starts_by_break (maxWidth : Z) (L1 L2 : list token) : Prop :=
  exists t rest, L2 = t :: rest /\ breaks maxWidth (line_width L1) t = true.

Fixpoint chained (maxWidth : Z) (lines : list (list token)) : Prop :=
  match lines with
  | [] => True
  | L1 :: r =>
      match r with
      | [] => True
      | L2 :: _ => starts_by_break maxWidth L1 L2 /\ chained maxWidth r
      end
  end.

Lemma chained_snoc m (l : list (list token)) a b :
  chained m (l ++ [a]) -> starts_by_break m a b -> chained m (l ++ [a; b]).
Proof.
  induction l as [|x l IH]; intros Hc Hb; [split; [exact Hb | exact I]|].
  destruct l as [|y l].
  - destruct Hc as [Hxa _]. split; [exact Hxa|]. split; [exact Hb | exact I].
  - destruct Hc as [Hxy Hc]. split; [exact Hxy|]. exact (IH Hc Hb).
Qed.

Lemma chained_last m (l : list (list token)) a a' :
  chained m (l ++ [a]) ->
  (forall L1, starts_by_break m L1 a -> starts_by_break m L1 a') ->
  chained m (l ++ [a']).
Proof.
  induction l as [|x l IH]; intros Hc Ha; [exact I|].
  destruct l as [|y l].
  - destruct Hc as [Hxa _]. split; [exact (Ha x Hxa) | exact I].
  - destruct Hc as [Hxy Hc]. split; [exact Hxy|]. exact (IH Hc Ha).
Qed.

Lemma wrap_go_chained m done_ cur w ts :
  w = line_width cur -> chained m (done_ ++ [cur]) ->
  chained m (wrap_go m done_ cur w ts).
Proof.
  revert done_ cur w. induction ts as [|t r IH]; intros done_ cur w Hw Hc; simpl;
    [exact Hc|].
  destruct (breaks m w t) eqn:Hb.
  - apply IH; [simpl; lia|]. rewrite <- app_assoc. simpl.
    apply chained_snoc; [exact Hc|]. exists t, []. subst w. split; [reflexivity | exact Hb].
  - apply IH.
    + rewrite line_width_app, Hw. simpl. lia.
    + apply (chained_last m done_ cur); [exact Hc|].
      intros L1 (t0 & rest & -> & Hb0). exists t0, (rest ++ [t]). split; [reflexivity | exact Hb0].
Qed.

Lemma wrap_go_app m done_ cur w ts :
  wrap_go m done_ cur w ts = done_ ++ wrap_go m [] cur w ts.
Proof.
  revert done_ cur w. induction ts as [|t ts IH]; intros done_ cur w; simpl.
  - reflexivity.
  - destruct (breaks m w t).
    + rewrite (IH (done_ ++ [cur])), (IH [cur]). rewrite <- app_assoc. reflexivity.
    + apply IH.
Qed.

Lemma wrap_go_concat m done_ cur w ts :
  concat (wrap_go m done_ cur w ts) = concat done_ ++ cur ++ ts.
Proof.
  revert done_ cur w. induction ts as [|t ts IH]; intros done_ cur w; simpl.
  - rewrite concat_app. simpl. rewrite !app_nil_r. reflexivity.
  - destruct (breaks m w t); rewrite IH.
    + rewrite concat_app. simpl. rewrite !app_nil_r, <- !app_assoc. reflexivity.
    + rewrite <- !app_assoc. reflexivity.
Qed.

Lemma fits_line_single m t : fits_line m [t].
Proof.
  intros pre u post H _. destruct pre as [|p pre].
  - simpl in H. inversion H; subst. right. split; [reflexivity | constructor].
  - destruct pre; discriminate.
Qed.

Lemma fits_line_snoc m cur t :
  Forall (fun u => 0 <= twidth u) cur -> 0 <= twidth t ->
  fits_line m cur -> breaks m (line_width cur) t = false ->
  fits_line m (cur ++ [t]).
Proof.
  intros Hnn Ht Hcur Hb pre u post Heq Hu.
  unfold breaks in Hb.
  symmetry in Heq.
  apply split_snoc in Heq as [(-> & -> & ->) | (post0 & -> & Hc)].
  - rewrite Hu, andb_true_r in Hb. apply Z.ltb_ge in Hb.
    left. rewrite line_width_app. simpl. lia.
  - destruct (Hcur pre u post0 Hc Hu) as [Hle | [-> Hbl]]; [left; exact Hle|].
    destruct (Z_le_gt_dec (line_width ([] ++ [u])) m) as [Hle|Hgt]; [left; exact Hle|].
    right. split; [reflexivity|]. apply Forall_app. split; [exact Hbl|].
    constructor; [|constructor].
    unfold blank_tok. destruct (nonblank (ttext t)) eqn:E; [|reflexivity].
    rewrite andb_true_r in Hb. apply Z.ltb_ge in Hb.
    rewrite Hc in Hnn, Hb. simpl in Hnn, Hb, Hgt. inversion Hnn as [|? ? _ Hp]; subst.
    assert (0 <= line_width post0) by (apply line_width_nonneg; exact Hp).
    lia.
Qed.

Lemma wrap_go_fits m done_ cur w ts :
  Forall (fun u => 0 <= twidth u) ts -> Forall (fun u => 0 <= twidth u) cur ->
  w = line_width cur -> fits_line m cur -> Forall (fits_line m) done_ ->
  Forall (fits_line m) (wrap_go m done_ cur w ts).
Proof.
  revert done_ cur w. induction ts as [|t ts IH]; intros done_ cur w Hts Hcur Hw Hf Hd; simpl.
  - apply Forall_app. auto.
  - inversion Hts as [|? ? Ht Hts']; subst.
    destruct (breaks m (line_width cur) t) eqn:Hb.
    + apply IH; auto.
      * simpl. lia.
      * apply fits_line_single.
      * apply Forall_app. auto.
    + apply IH; auto.
      * apply Forall_app. auto.
      * rewrite line_width_app. simpl. lia.
      * apply fits_line_snoc; auto.
Qed.

Lemma wrap_go_head m done_ cur w ts :
  exists X Ls, wrap_go m done_ cur w ts = done_ ++ (cur ++ X) :: Ls.
Proof.
  revert done_ cur w. induction ts as [|t ts IH]; intros done_ cur w; simpl.
  - exists [], []. rewrite app_nil_r. reflexivity.
  - destruct (breaks m w t).
    + destruct (IH (done_ ++ [cur]) [t] (twidth t)) as (X & Ls & ->).
      exists [], ((t :: X) :: Ls). rewrite app_nil_r, <- app_assoc. reflexivity.
    + destruct (IH done_ (cur ++ [t]) (w + twidth t)) as (X & Ls & ->).
      exists (t :: X), Ls. rewrite <- app_assoc. reflexivity.
Qed.

Lemma wrap_go_nonempty m cur w ts : wrap_go m [] cur w ts <> [].
Proof.
  destruct (wrap_go_head m [] cur w ts) as (X & Ls & ->). discriminate.
Qed.

(** The bullet branch flushes exactly the lines of the greedy wrap. *)
Lemma bullet_words_wrap W st lw curW ts :
  bullet_words W st lw curW ts =
  (fold_left (bullet_flush W) (removelast (wrap_go bullet_max_width [] lw curW ts)) st,
   last (wrap_go bullet_max_width [] lw curW ts) []).
Proof.
  revert st lw curW. induction ts as [|t ts IH]; intros st lw curW; simpl.
  - reflexivity.
  - destruct (breaks bullet_max_width curW t).
    + rewrite IH, (wrap_go_app _ [lw]). simpl.
      pose proof (wrap_go_nonempty bullet_max_width [t] (twidth t) ts) as Hne.
      destruct (wrap_go bullet_max_width [] [t] (twidth t) ts) eqn:E; [contradiction|].
      reflexivity.
    + apply IH.
Qed.

Lemma tokens_of_nonneg W f size text :
  (forall f' sz w, 0 <= W f' sz w) ->
  Forall (fun u => 0 <= twidth u) (tokens_of W f size text).
Proof.
  intros HW. apply Forall_forall. intros u Hu.
  unfold tokens_of in Hu. apply in_flat_map in Hu as (seg & _ & Hu).
  apply in_map_iff in Hu as (word & <- & _). apply HW.
Qed.

Lemma wrap_blank_prefix m done_ cur w pre rest :
  Forall blank_tok pre ->
  wrap_go m done_ cur w (pre ++ rest) =
  wrap_go m done_ (cur ++ pre) (w + line_width pre) rest.
Proof.
  revert cur w. induction pre as [|p pre IH]; intros cur w Hbl; simpl.
  - rewrite app_nil_r, Z.add_0_r. reflexivity.
  - inversion Hbl as [|? ? Hp Hbl']; subst.
    unfold breaks at 1. unfold blank_tok in Hp. rewrite Hp, andb_false_r.
    rewrite IH by exact Hbl'. rewrite <- app_assoc, Z.add_assoc. reflexivity.
Qed.

(** *** Placement *)

(** A text run at height [y] with the given size and color. *)
Definition text_at (y size : Z) (col : color) (e : event) : Prop :=
  exists txt x f, e = DrawText txt x y size f col.

Lemma draw_runs_spec o x st L :
  currentY (draw_runs o x st L) = currentY st /\
  exists evs, log (draw_runs o x st L) = log st ++ evs /\
              Forall (text_at (currentY st) (o_size o) (o_color o)) evs.
Proof.
  revert x st. induction L as [|t L IH]; intros x st; simpl.
  - split; [reflexivity|]. exists []. rewrite app_nil_r. auto.
  - destruct (IH (x + twidth t)
                 (emit st (DrawText (ttext t) x (currentY st) (o_size o)
                                    (if tbold t then HelveticaBold else o_font o)
                                    (o_color o)))) as [Hy (evs & Hl & Hf)].
    simpl in Hy, Hl, Hf. split; [exact Hy|].
    eexists. rewrite Hl, <- app_assoc. split; [reflexivity|].
    constructor; [do 3 eexists; reflexivity | exact Hf].
Qed.

(** One line of [drawRichText]: the new page, if any, then the runs of the
    line at the (possibly reset) cursor, then the advance. *)
Lemma place_line_spec o st L :
  let reset := currentY st <? margin + 2000 in
  let y := if reset then page_height - margin else currentY st in
  currentY (place_line o st L) = y - line_advance (o_size o) /\
  exists evs,
    log (place_line o st L) = log st ++ (if reset then [AddPage] else []) ++ evs /\
    Forall (text_at y (o_size o) (o_color o)) evs.
Proof.
  cbv zeta. unfold place_line, paginate.
  destruct (currentY st <? margin + 2000).
  - match goal with |- context [draw_runs o ?x (add_page st) L] =>
      destruct (draw_runs_spec o x (add_page st) L) as [Hy (evs & Hl & Hf)] end.
    unfold set_y at 1 2. cbn [currentY log]. rewrite Hy. split; [reflexivity|].
    exists evs. rewrite Hl. simpl in Hf |- *. rewrite <- app_assoc. auto.
  - match goal with |- context [draw_runs o ?x st L] =>
      destruct (draw_runs_spec o x st L) as [Hy (evs & Hl & Hf)] end.
    unfold set_y at 1 2. cbn [currentY log]. rewrite Hy. split; [reflexivity|].
    exists evs. rewrite Hl. auto.
Qed.

Lemma draw_line_words_spec W cX st lw :
  currentY (draw_line_words W cX st lw) = currentY st /\
  exists evs, log (draw_line_words W cX st lw) = log st ++ evs /\
              Forall (text_at (currentY st) bullet_size black) evs.
Proof.
  revert cX st. induction lw as [|t lw IH]; intros cX st; simpl.
  - split; [reflexivity|]. exists []. rewrite app_nil_r. auto.
  - match goal with |- context [draw_line_words W ?x ?s lw] =>
      destruct (IH x s) as [Hy (evs & Hl & Hf)] end.
    simpl in Hy, Hl, Hf. split; [exact Hy|].
    eexists. rewrite Hl, <- app_assoc. split; [reflexivity|].
    constructor; [do 3 eexists; reflexivity | exact Hf].
Qed.

(** The flush after a wrap break in the bullet branch: the pending words at
    the cursor, the advance, then the height check. *)
Lemma bullet_flush_spec W st lw :
  let y := currentY st - line_advance bullet_size in
  let reset := y <? margin + 2000 in
  currentY (bullet_flush W st lw) = (if reset then page_height - margin else y) /\
  exists evs,
    log (bullet_flush W st lw) = log st ++ evs ++ (if reset then [AddPage] else []) /\
    Forall (text_at (currentY st) bullet_size black) evs.
Proof.
  cbv zeta. unfold bullet_flush, paginate.
  destruct (draw_line_words_spec W bullet_margin st lw) as [Hy (evs & Hl & Hf)].
  cbn [set_y currentY log]. rewrite Hy.
  destruct (currentY st - line_advance bullet_size <? margin + 2000);
    cbn [add_page emit set_y currentY log].
  - split; [reflexivity|]. exists evs. rewrite Hl, <- app_assoc.
    split; [reflexivity | exact Hf].
  - split; [reflexivity|]. exists evs. rewrite Hl, app_nil_r.
    split; [reflexivity | exact Hf].
Qed.

(** The color of every text run. *)
Definition colored (col : color) (e : event) : Prop :=
  match e with DrawText _ _ _ _ _ c => c = col | _ => True end.

Lemma fold_place_line_colored o lines st :
  exists evs, log (fold_left (place_line o) lines st) = log st ++ evs /\
              Forall (colored (o_color o)) evs.
Proof.
  revert st. induction lines as [|L lines IH]; intros st; simpl.
  - exists []. rewrite app_nil_r. auto.
  - destruct (IH (place_line o st L)) as (evs2 & Hl2 & Hf2).
    destruct (place_line_spec o st L) as [_ (evs1 & Hl1 & Hf1)].
    rewrite Hl2, Hl1, <- !app_assoc. eexists. split; [reflexivity|].
    rewrite !Forall_app. refine (conj _ (conj _ Hf2)).
    + destruct (currentY st <? margin + 2000); repeat constructor.
    + eapply Forall_impl; [|exact Hf1]. intros e (txt & x & f & ->). reflexivity.
Qed.

Lemma drawRichText_colored W o text st :
  exists evs, log (drawRichText W o text st) = log st ++ evs /\
              Forall (colored (o_color o)) evs.
Proof.
  unfold drawRichText. simpl. apply fold_place_line_colored.
Qed.

Lemma trim_start_all_ws (l : str) :
  Forall (fun c => is_ws c = true) l -> trim_start l = [].
Proof.
  induction 1 as [|c l Hc _ IH]; simpl; [reflexivity|]. rewrite Hc. exact IH.
Qed.

(** ** Claims *)

(** C1 (as stated, refuted): a wrapped line of [drawRichText] can be wider
    than the maximum width although none of its tokens alone is. In the body
    font (Helvetica, 10 pt) an 89-letter word is 494.84 pt wide, within the
    495.28 pt maximum; the space after it is appended without any check and
    brings the first line to 497.62 pt. *)
Lemma wrap_line_exceeds_max :
  let ts := tokens_of helvetica_metric (o_font (body_opts false)) (o_size (body_opts false))
                      long_word_text in
  let L := hd [] (wrap rich_max_width ts) in
  forallb helvetica_known long_word_text = true /\
  L = [mk_tok (repeat "a"%char 89) false 49484; mk_tok (s_ " ") false 278] /\
  rich_max_width < line_width L /\ Forall (fun t => twidth t <= rich_max_width) L.
Proof.
  vm_compute. split; [reflexivity|]. split; [reflexivity|]. split; [reflexivity|].
  repeat constructor; discriminate.
Qed.

(** C1 (amended): in [drawRichText] and in the bullet branch, the wrapped
    lines hold the tokens in order, unsplit; on every line, each non-blank
    token fits within the maximum width together with everything before it
    on the line, or starts the line and is followed by blank tokens only;
    every line after the first starts with a non-blank token that did not
    fit after the line before it, so only non-blank tokens trigger a break.
    The bullet branch flushes exactly the lines of the same greedy wrap. *)
Theorem wrap_fits_max_width W (HW : forall f sz w, 0 <= W f sz w)
    (o : rich_opts) (text bulletContent : str) (st : layout) :
  let ts := tokens_of W (o_font o) (o_size o) text in
  let bs := tokens_of W Helvetica bullet_size bulletContent in
  concat (wrap rich_max_width ts) = ts /\
  Forall (fits_line rich_max_width) (wrap rich_max_width ts) /\
  chained rich_max_width (wrap rich_max_width ts) /\
  bullet_words W st [] 0 bs =
    (fold_left (bullet_flush W) (removelast (wrap bullet_max_width bs)) st,
     last (wrap bullet_max_width bs) []) /\
  concat (wrap bullet_max_width bs) = bs /\
  Forall (fits_line bullet_max_width) (wrap bullet_max_width bs) /\
  chained bullet_max_width (wrap bullet_max_width bs).
Proof.
  cbv zeta. unfold wrap.
  pose proof (tokens_of_nonneg W (o_font o) (o_size o) text HW) as H1.
  pose proof (tokens_of_nonneg W Helvetica bullet_size bulletContent HW) as H2.
  split; [|split; [|split; [|split; [|split; [|split]]]]].
  - rewrite wrap_go_concat. reflexivity.
  - apply wrap_go_fits; auto. intros pre t post H. destruct pre; discriminate.
  - apply wrap_go_chained; [reflexivity | exact I].
  - apply bullet_words_wrap.
  - rewrite wrap_go_concat. reflexivity.
  - apply wrap_go_fits; auto. intros pre t post H. destruct pre; discriminate.
  - apply wrap_go_chained; [reflexivity | exact I].
Qed.

Lemma wrap_fits_max_width_witness :
  (forall f sz w, 0 <= mono f sz w) /\
  concat (wrap rich_max_width (tokens_of mono Helvetica 1000 long_word_text))
  = tokens_of mono Helvetica 1000 long_word_text.
Proof.
  assert (H : forall f sz w, 0 <= mono f sz w).
  { intros f sz w. unfold mono. apply Z.div_pos; [|lia]. apply Z.mul_nonneg_nonneg; lia. }
  split; [exact H|].
  exact (proj1 (wrap_fits_max_width mono H (body_opts false) long_word_text [] initial_layout)).
Defined.

(** C2 (code bug): the bullet branch draws its glyph and its first line at
    the cursor without a height check; after forty-four bullets the glyph of
    the forty-fifth is drawn at 43.89 pt, below the 50 pt margin, on the
    first and only page. *)
Lemma bullet_glyph_below_margin :
  exists st,
    handleDownloadPDF mono (editing bullet_block) = Some st /\
    nth_error (log st) 89 = Some (DrawText bullet_glyph margin 4389 1200 Helvetica black) /\
    4389 < margin /\ pages_allocated (log st) = 1%nat.
Proof.
  exists (export_pass mono bullet_block). vm_compute. repeat split; reflexivity.
Qed.

(** C3 (as stated, refuted): a title line (size 22, line height 33 pt)
    with the cursor at 79.89 pt, under 50 + 33 pt, is placed on the first
    page without a new page. *)
Lemma title_line_not_paginated :
  option_map log (handleDownloadPDF mono (editing low_title_content)) =
    Some [AddPage; DrawText (s_ "A") 29214 7989 2200 HelveticaBold black] /\
  7989 < margin + line_advance 2200.
Proof.
  vm_compute. split; reflexivity.
Qed.

(** C3 (amended): before each wrapped line of [drawRichText], when the
    cursor is under [margin + 20] pt (whatever the font size), a page is
    added and the line is drawn at exactly [height - margin]; otherwise the
    line is drawn at the cursor on the current page; the cursor then moves
    down one line height. The bullet branch makes the same 20 pt test after
    each wrap break, once the cursor has moved down one line. *)
Theorem line_pagination_threshold W o st L st' lw :
  (let reset := currentY st <? margin + 2000 in
   let y := if reset then page_height - margin else currentY st in
   currentY (place_line o st L) = y - line_advance (o_size o) /\
   exists evs,
     log (place_line o st L) = log st ++ (if reset then [AddPage] else []) ++ evs /\
     Forall (text_at y (o_size o) (o_color o)) evs) /\
  (let y := currentY st' - line_advance bullet_size in
   let reset := y <? margin + 2000 in
   currentY (bullet_flush W st' lw) = (if reset then page_height - margin else y) /\
   exists evs,
     log (bullet_flush W st' lw) = log st' ++ evs ++ (if reset then [AddPage] else []) /\
     Forall (text_at (currentY st') bullet_size black) evs).
Proof.
  split; [apply place_line_spec | apply bullet_flush_spec].
Qed.

(** C4 (as stated, refuted): a parsed response that lacks required fields
    is resolved as the result in both versions of the service, and an empty
    text resolves to the empty object in [src/services/geminiService.ts]. *)
Lemma missing_fields_resolved :
  optimizeResume_svc (Responded (SomeText (Parsed partial_json))) = Resolved partial_json /\
  optimizeResume_v0 (Responded (SomeText (Parsed partial_json))) = Resolved partial_json /\
  has_required_fields partial_json = false /\
  optimizeResume_svc (Responded NoText) = Resolved (JObj []) /\
  has_required_fields (JObj []) = false.
Proof.
  repeat split; reflexivity.
Qed.

(** C4 (amended): [optimizeResume] rejects exactly when the generation call
    fails or the response text is not valid JSON (and, in the part_001
    version, when the text is empty); any parsed value is returned as it is,
    without checking its fields; in [src/services/geminiService.ts] an empty
    text yields the empty object. *)
Theorem optimizeResume_rejections :
  (forall j, optimizeResume_svc (Responded (SomeText (Parsed j))) = Resolved j /\
             optimizeResume_v0 (Responded (SomeText (Parsed j))) = Resolved j) /\
  optimizeResume_svc (Responded NoText) = Resolved (JObj []) /\
  (forall r, is_rejected (optimizeResume_svc r) = true <->
             (exists m, r = CallFailed m) \/ (exists m, r = Responded (SomeText (Malformed m)))) /\
  (forall r, is_rejected (optimizeResume_v0 r) = true <->
             (exists m, r = CallFailed m) \/ r = Responded NoText \/
             (exists m, r = Responded (SomeText (Malformed m)))).
Proof.
  split; [intros j; split; reflexivity|]. split; [reflexivity|].
  split; intros r; split.
  - destruct r as [m|[|[m|j]]]; simpl; intros H; try discriminate; eauto.
  - intros [(m & ->)|(m & ->)]; reflexivity.
  - destruct r as [m|[|[m|j]]]; simpl; intros H; try discriminate; eauto.
  - intros [(m & ->)|[->|(m & ->)]]; reflexivity.
Qed.

(** C5: when [optimizeResume] rejects, both versions of [handleOptimize]
    leave the editor text, the stored result and the step as they were and
    set one error message. *)
Theorem failed_optimize_keeps_editor optimize m s :
  (forall d, optimize d = Rejected m) ->
  let s1 := handleOptimize optimize s in
  let s0 := handleOptimize_v0 optimize s in
  inputContent s1 = inputContent s /\ result s1 = result s /\ step s1 = step s /\
  (exists e, error s1 = Some e) /\
  inputContent s0 = inputContent s /\ result s0 = result s /\ step s0 = step s /\
  (exists e, error s0 = Some e).
Proof.
  intros H. cbv zeta. unfold handleOptimize, handleOptimize_v0. rewrite !H.
  destruct (is_empty (trim (inputContent s))); simpl;
    [|destruct (is_empty (trim (targetTitle s)))]; simpl;
    repeat split; eexists; reflexivity.
Qed.

Lemma failed_optimize_keeps_editor_witness :
  let s := mk_ui 1 false false None (s_ "# Jane Doe") (s_ "Engineer") [] MID [] None in
  let s1 := handleOptimize (fun _ => Rejected (s_ "quota")) s in
  (* the title is filled in, so the call gets past validation to the service *)
  error s1 = Some (s_ "quota") /\ loading s1 = false /\
  inputContent s1 = inputContent s /\ result s1 = result s /\ step s1 = step s.
Proof.
  cbv zeta.
  pose proof (failed_optimize_keeps_editor (fun _ => Rejected (s_ "quota")) (s_ "quota")
                (mk_ui 1 false false None (s_ "# Jane Doe") (s_ "Engineer") [] MID [] None)
                (fun _ => eq_refl)) as H.
  cbv zeta in H. destruct H as (H1 & H2 & H3 & _).
  split; [reflexivity | split; [reflexivity | exact (conj H1 (conj H2 H3))]].
Defined.

(** C6: a body line is drawn centered in the muted color exactly when the
    raw input line just before it starts with the ["# "] marker, and left
    aligned in black otherwise; the choice reads only that one predecessor
    of the line array. *)
Theorem contact_line_lookback W (lines : list str) (i : nat) (st : layout) :
  let line := trim (nth i lines []) in
  is_empty line = false ->
  starts_with (s_ "# ") line = false -> starts_with (s_ "## ") line = false ->
  starts_with (s_ "### ") line = false -> starts_with (s_ "- ") line = false ->
  starts_with (s_ "* ") line = false ->
  process_line W lines i st =
    drawRichText W (mk_opts 1000 Helvetica
                      (if is_contact lines i then muted else black)
                      (if is_contact lines i then AlignCenter else AlignLeft)) line st /\
  (exists evs, log (process_line W lines i st) = log st ++ evs /\
               Forall (colored (if is_contact lines i then muted else black)) evs) /\
  (is_contact lines i = true <->
     (0 < i)%nat /\ starts_with (s_ "# ") (nth (i - 1) lines []) = true) /\
  (forall lines' : list str, nth (i - 1) lines' [] = nth (i - 1) lines [] ->
                  is_contact lines' i = is_contact lines i).
Proof.
  cbv zeta. intros He H1 H2 H3 H4 H5.
  assert (Hp : process_line W lines i st =
               drawRichText W (body_opts (is_contact lines i)) (trim (nth i lines [])) st).
  { unfold process_line. destruct (trim (nth i lines [])) as [|c r]; [discriminate|].
    rewrite H1, H2, H3, H4, H5. reflexivity. }
  split; [exact Hp|]. split.
  - rewrite Hp. apply (drawRichText_colored W (body_opts (is_contact lines i))).
  - unfold is_contact. split.
    + rewrite andb_true_iff, Nat.ltb_lt. tauto.
    + intros lines' Heq. rewrite Heq. reflexivity.
Qed.

Lemma contact_line_lookback_witness :
  process_line mono contact_lines 1 initial_layout =
  drawRichText mono (mk_opts 1000 Helvetica muted AlignCenter)
               (trim (nth 1 contact_lines [])) initial_layout.
Proof.
  exact (proj1 (contact_line_lookback mono contact_lines 1 initial_layout
                  eq_refl eq_refl eq_refl eq_refl eq_refl eq_refl)).
Defined.

(** C7 (code bug): an unmatched [**] (or [***]) left between matches is
    taken for a bold span, since [startsWith('**') && endsWith('**')] holds
    for it; its text is sliced to nothing, so the stars vanish from the
    output instead of staying as regular text. *)
Lemma unmatched_stars_dropped :
  segments (s_ "**") = [s_ "**"] /\
  spans (s_ "**") = [([], true)] /\
  spans (s_ "***") = [([], true)] /\
  log (export_pass mono (s_ "**")) =
    [AddPage; DrawText [] margin (page_height - margin) 1000 HelveticaBold black].
Proof.
  vm_compute. repeat split; reflexivity.
Qed.

(** C8: when the content to export is empty or whitespace only, the export
    returns before any document or page is created. *)
Theorem blank_content_no_export W s :
  Forall (fun c => is_ws c = true) (contentToExport s) ->
  handleDownloadPDF W s = None.
Proof.
  intros H. unfold handleDownloadPDF, trim.
  rewrite (trim_start_all_ws _ H). reflexivity.
Qed.

Lemma blank_content_no_export_witness :
  handleDownloadPDF mono (editing (s_ " " ++ [nl] ++ s_ "  ")) = None.
Proof.
  apply blank_content_no_export. vm_compute. repeat constructor.
Defined.

(** C9 (as stated, refuted): [src/App.tsx] accepts a file with any other
    extension, decoding it as text into the editor. *)
Lemma other_extension_accepted :
  let s' := handleFileUpload (Some rtf_upload) (editing []) in
  inputContent s' = s_ "Jane Doe" /\ error s' = None.
Proof.
  vm_compute. split; reflexivity.
Qed.

(** C9 (amended): in [src/App.tsx] a file whose lower-cased name ends
    neither in [.pdf] nor in [.docx] is decoded as text and put into the
    editor; only the part_001 version rejects a name that ends in none of
    [.pdf], [.docx], [.txt] and [.md], with an "unsupported file type"
    error and the editor left as it was. *)
Theorem upload_extension_dispatch f s :
  ends_with (s_ ".pdf") (to_lower (fname f)) = false ->
  ends_with (s_ ".docx") (to_lower (fname f)) = false ->
  (inputContent (handleFileUpload (Some f) s) = decoded_text f /\
   error (handleFileUpload (Some f) s) = None) /\
  (ends_with (s_ ".txt") (to_lower (fname f)) = false ->
   ends_with (s_ ".md") (to_lower (fname f)) = false ->
   error (handleFileUpload_v0 (Some f) s) =
     Some (s_ "Unsupported file type. Please upload PDF, DOCX, TXT, or MD.") /\
   inputContent (handleFileUpload_v0 (Some f) s) = inputContent s).
Proof.
  intros Hpdf Hdocx. unfold handleFileUpload, handleFileUpload_v0.
  rewrite Hpdf, Hdocx. split; [split; reflexivity|].
  intros Htxt Hmd. rewrite Htxt, Hmd. split; reflexivity.
Qed.

Lemma upload_extension_dispatch_witness :
  inputContent (handleFileUpload (Some rtf_upload) (editing [])) = s_ "Jane Doe".
Proof.
  exact (proj1 (proj1 (upload_extension_dispatch rtf_upload (editing []) eq_refl eq_refl))).
Defined.

(** C10 (as stated, refuted): when the text starts with a space before an
    overlong word, the wrapped line emitted before the word is not empty: it
    holds the leading empty piece and the space. *)
Lemma overlong_first_line_not_empty :
  wrap rich_max_width (tokens_of mono Helvetica 1000 overlong_text) =
    [[mk_tok [] false 0; mk_tok (s_ " ") false 500];
     [mk_tok (repeat "a"%char 100) false 50000]].
Proof.
  vm_compute. reflexivity.
Qed.

(** C10 (amended): when the first non-blank token of a [drawRichText] text
    is wider than the maximum width, the wrap emits first a line holding
    exactly the blank tokens before it (no token when the text starts with
    it), then a line starting with that token; that extra line goes through
    its own height check and moves the cursor down one line height. *)
Theorem overlong_first_token_extra_line W (HW : forall f sz w, 0 <= W f sz w)
    o text st pre t rest :
  tokens_of W (o_font o) (o_size o) text = pre ++ t :: rest ->
  Forall blank_tok pre -> nonblank (ttext t) = true -> rich_max_width < twidth t ->
  (exists L' Ls,
     wrap rich_max_width (tokens_of W (o_font o) (o_size o) text) = pre :: (t :: L') :: Ls /\
     fold_left (place_line o) (wrap rich_max_width (tokens_of W (o_font o) (o_size o) text)) st
     = fold_left (place_line o) ((t :: L') :: Ls) (place_line o st pre)) /\
  currentY (place_line o st pre) =
    (if currentY st <? margin + 2000 then page_height - margin else currentY st)
    - line_advance (o_size o).
Proof.
  intros Hts Hbl Ht Hw. split; [|apply place_line_spec].
  pose proof (tokens_of_nonneg W (o_font o) (o_size o) text HW) as Hnn.
  rewrite Hts in Hnn |- *. apply Forall_app in Hnn as [Hpre _].
  unfold wrap. rewrite wrap_blank_prefix by exact Hbl. cbn [app wrap_go].
  assert (Hb : breaks rich_max_width (0 + line_width pre) t = true).
  { unfold breaks. rewrite Ht, andb_true_r. apply Z.ltb_lt.
    pose proof (line_width_nonneg pre Hpre). lia. }
  rewrite Hb, wrap_go_app.
  destruct (wrap_go_head rich_max_width [] [t] (twidth t) rest) as (X & Ls & ->).
  exists X, Ls. split; reflexivity.
Qed.

Lemma overlong_first_token_extra_line_witness :
  exists L' Ls,
    wrap rich_max_width (tokens_of mono Helvetica 1000 overlong_text) =
    [mk_tok [] false 0; mk_tok (s_ " ") false 500] ::
      (mk_tok (repeat "a"%char 100) false 50000 :: L') :: Ls.
Proof.
  assert (H : forall f sz w, 0 <= mono f sz w).
  { intros f sz w. unfold mono. apply Z.div_pos; [|lia]. apply Z.mul_nonneg_nonneg; lia. }
  destruct (proj1 (overlong_first_token_extra_line mono H (body_opts false) overlong_text
                     initial_layout
                     [mk_tok [] false 0; mk_tok (s_ " ") false 500]
                     (mk_tok (repeat "a"%char 100) false 50000) []
                     ltac:(vm_compute; reflexivity)
                     ltac:(repeat constructor)
                     ltac:(vm_compute; reflexivity)
                     ltac:(vm_compute; reflexivity)))
    as (L' & Ls & Hw & _).
  exists L', Ls. exact Hw.
Defined.

(** ** Further properties of the code *)

(** *** Text splitting *)

Lemma split_nl_go_nonempty acc s : split_nl_go acc s <> [].
Proof.
  revert acc. induction s as [|c s IH]; intros acc; simpl; [discriminate|].
  destruct (nat_of_ascii c =? 10)%nat; [discriminate | apply IH].
Qed.

Lemma join_lines_cons x l : l <> [] -> join_lines (x :: l) = x ++ ascii_of_nat 10 :: join_lines l.
Proof. destruct l; [contradiction | reflexivity]. Qed.

Lemma join_split_nl_go acc s : join_lines (split_nl_go acc s) = rev acc ++ s.
Proof.
  revert acc. induction s as [|c s IH]; intros acc; simpl.
  - rewrite app_nil_r. reflexivity.
  - destruct (nat_of_ascii c =? 10)%nat eqn:Hc.
    + rewrite join_lines_cons by apply split_nl_go_nonempty.
      rewrite (IH []). apply Nat.eqb_eq in Hc.
      rewrite <- Hc, ascii_nat_embedding. reflexivity.
    + rewrite IH. simpl. rewrite <- app_assoc. reflexivity.
Qed.

Lemma concat_split_ws_go b acc s : concat (split_ws_go b acc s) = rev acc ++ s.
Proof.
  revert b acc. induction s as [|c s IH]; intros b acc; simpl.
  - destruct b; simpl; rewrite !app_nil_r; reflexivity.
  - destruct (is_ws c), b; simpl; rewrite IH; simpl;
      rewrite <- ?app_assoc; reflexivity.
Qed.

Lemma concat_split_ws s : concat (split_ws s) = s.
Proof. apply concat_split_ws_go. Qed.

Lemma lazy_close_cons2 c d r' :
  lazy_close (c :: d :: r') =
  if Ascii.eqb c star && Ascii.eqb d star then Some ([], r')
  else if is_line_term c then None
  else match lazy_close (d :: r') with
       | Some (p, q) => Some (c :: p, q)
       | None => None
       end.
Proof. reflexivity. Qed.

Lemma lazy_close_spec s p q :
  lazy_close s = Some (p, q) -> s = p ++ star :: star :: q.
Proof.
  revert p q. induction s as [|c r IH]; intros p q H; [discriminate|].
  destruct r as [|d r']; [discriminate|].
  rewrite lazy_close_cons2 in H.
  destruct (Ascii.eqb c star && Ascii.eqb d star) eqn:Hst.
  - apply andb_prop in Hst as [H1 H2].
    apply Ascii.eqb_eq in H1, H2. subst. injection H as <- <-. reflexivity.
  - destruct (is_line_term c); [cbn in H; discriminate|].
    destruct (lazy_close (d :: r')) as [[p' q']|] eqn:Hl; cbn in H; [|discriminate].
    injection H as <- <-. rewrite (IH p' q' eq_refl). reflexivity.
Qed.

Lemma concat_split_bold_go f acc s : concat (split_bold_go f acc s) = rev acc ++ s.
Proof.
  revert acc s. induction f as [|f IH]; intros acc s; simpl.
  - rewrite app_nil_r. reflexivity.
  - destruct s as [|c r]; simpl; [rewrite app_nil_r; reflexivity|].
    assert (Hfb : concat (split_bold_go f (c :: acc) r) = rev acc ++ c :: r).
    { rewrite IH. simpl. rewrite <- app_assoc. reflexivity. }
    destruct r as [|d r']; [exact Hfb|].
    destruct (Ascii.eqb c star && Ascii.eqb d star) eqn:Hst; [|exact Hfb].
    destruct (lazy_close r') as [[p q]|] eqn:Hl; [|exact Hfb].
    apply andb_prop in Hst as [H1 H2]. apply Ascii.eqb_eq in H1, H2. subst.
    rewrite (lazy_close_spec r' p q Hl). simpl. rewrite IH. simpl.
    rewrite <- !app_assoc. reflexivity.
Qed.

Lemma concat_filter_nonempty (l : list str) :
  concat (filter (fun s => negb (match s with [] => true | _ => false end)) l) = concat l.
Proof.
  induction l as [|x l IH]; simpl; [reflexivity|].
  destruct x; simpl; rewrite IH; reflexivity.
Qed.

Lemma split_bold_go_nonstar f acc c r :
  Ascii.eqb c star = false ->
  split_bold_go (S f) acc (c :: r) = split_bold_go f (c :: acc) r.
Proof. intros H. simpl. destruct r; [reflexivity|]. rewrite H. reflexivity. Qed.

Lemma split_bold_go_free a : forall f acc rest,
  star_free a = true -> (length a < f)%nat ->
  split_bold_go f acc (a ++ rest) = split_bold_go (f - length a) (rev a ++ acc) rest.
Proof.
  induction a as [|c a IH]; intros f acc rest Ha Hf.
  - simpl. rewrite Nat.sub_0_r. reflexivity.
  - simpl in Ha. apply andb_prop in Ha as [Hc Ha]. apply negb_true_iff in Hc.
    destruct f as [|f]; [simpl in Hf; lia|].
    simpl app. rewrite split_bold_go_nonstar by exact Hc.
    rewrite IH by (simpl in Hf; auto with arith).
    simpl. rewrite <- app_assoc. reflexivity.
Qed.

Lemma lazy_close_free p b :
  star_free p = true -> no_line_term p = true ->
  lazy_close (p ++ star :: star :: b) = Some (p, b).
Proof.
  induction p as [|c p IH]; intros Hs Ht.
  - reflexivity.
  - simpl in Hs, Ht. apply andb_prop in Hs as [Hc Hs]. apply andb_prop in Ht as [Hl Ht].
    apply negb_true_iff in Hc, Hl.
    assert (E : exists d r', p ++ star :: star :: b = d :: r')
      by (destruct p; simpl; eauto).
    destruct E as (d & r' & E).
    simpl app. rewrite E, lazy_close_cons2, Hc. simpl andb. rewrite Hl, <- E, IH by assumption.
    reflexivity.
Qed.

Lemma starts_with_app l m : starts_with l (l ++ m) = true.
Proof. induction l as [|c l IH]; simpl; [reflexivity|]. rewrite Ascii.eqb_refl. exact IH. Qed.

Lemma is_bold_seg_free a : star_free a = true -> is_bold_seg a = false.
Proof.
  intros Ha. destruct a as [|c a]; [reflexivity|].
  simpl in Ha. apply andb_prop in Ha as [Hc _]. apply negb_true_iff in Hc.
  unfold is_bold_seg.
  change (starts_with [star; star] (c :: a)) with (Ascii.eqb star c && starts_with [star] a).
  destruct (Ascii.eqb star c) eqn:E; [|reflexivity].
  apply Ascii.eqb_eq in E. subst. rewrite Ascii.eqb_refl in Hc. discriminate.
Qed.

Lemma bold_seg_clean p :
  is_bold_seg ([star; star] ++ p ++ [star; star]) = true /\
  clean_seg ([star; star] ++ p ++ [star; star]) = p.
Proof.
  assert (Hb : is_bold_seg ([star; star] ++ p ++ [star; star]) = true).
  { unfold is_bold_seg, ends_with. rewrite starts_with_app, andb_true_l.
    rewrite (app_assoc [star; star] p), rev_app_distr. apply starts_with_app. }
  split; [exact Hb|]. unfold clean_seg. rewrite Hb. unfold slice_2_m2.
  rewrite !length_app. simpl length.
  replace (2 + (length p + 2) - 2)%nat with (S (S (length p))) by lia.
  cbn [app firstn skipn]. rewrite firstn_app, firstn_all, Nat.sub_diag.
  cbn [firstn]. apply app_nil_r.
Qed.

Lemma split_bold_go_free_all b f acc :
  star_free b = true -> (length b < f)%nat -> split_bold_go f acc b = [rev acc ++ b].
Proof.
  intros Hb Hf. rewrite <- (app_nil_r b) at 1. rewrite split_bold_go_free by assumption.
  destruct (f - length b)%nat as [|k] eqn:Hk; [lia|]. simpl. rewrite rev_app_distr, rev_involutive.
  reflexivity.
Qed.

Lemma split_bold_go_pair f acc r' p q :
  lazy_close r' = Some (p, q) ->
  split_bold_go (S f) acc (star :: star :: r') =
  rev acc :: ([star; star] ++ p ++ [star; star]) :: split_bold_go f [] q.
Proof. intros H. simpl. rewrite H. reflexivity. Qed.

(** X1: splitting the export content into lines loses nothing: joining the
    lines back with newlines gives the content. *)
Theorem split_nl_join_roundtrip (s : str) : join_lines (split_nl s) = s.
Proof. apply join_split_nl_go. Qed.

(** X2: the word split of [drawRichText] and of the bullet branch keeps every
    character: its pieces, words and whitespace runs, concatenate to the input. *)
Theorem split_ws_roundtrip (s : str) : concat (split_ws s) = s.
Proof. apply concat_split_ws_go. Qed.

(** X3: the bold splitter keeps every character of the line: the raw
    segments, delimiters included, concatenate to the input. *)
Theorem segments_roundtrip (text : str) : concat (segments text) = text.
Proof.
  unfold segments. rewrite concat_filter_nonempty, concat_split_bold_go. reflexivity.
Qed.

(** X4: a line without any asterisk is one regular span holding the whole line. *)
Theorem spans_star_free (t : str) :
  star_free t = true -> t <> [] -> spans t = [(t, false)].
Proof.
  intros Ht Hne. unfold spans, segments.
  rewrite split_bold_go_free_all by (auto with arith). simpl.
  destruct t as [|c t]; [contradiction|]. simpl.
  unfold clean_seg. rewrite is_bold_seg_free by exact Ht. reflexivity.
Qed.

Lemma spans_star_free_witness :
  spans (s_ "Led a team of 5") = [(s_ "Led a team of 5", false)].
Proof.
  apply spans_star_free; [reflexivity | discriminate].
Defined.

(** X5: one pair of [**] delimiters around star-free text on one line, between
    star-free text, yields the text before as a regular span, the enclosed text
    as a bold span and the text after as a regular span; empty ones are dropped. *)
Theorem spans_bold_pair (a p b : str) :
  star_free a = true -> star_free p = true -> no_line_term p = true ->
  star_free b = true ->
  spans (a ++ [star; star] ++ p ++ [star; star] ++ b) =
  (if is_empty a then [] else [(a, false)]) ++
  (p, true) :: (if is_empty b then [] else [(b, false)]).
Proof.
  intros Ha Hp Hl Hb. unfold spans, segments.
  rewrite split_bold_go_free by (auto; rewrite length_app; lia).
  replace (S (length (a ++ [star; star] ++ p ++ [star; star] ++ b)) - length a)%nat
    with (S (length p + length b + 4)) by (rewrite !length_app; cbn [length]; lia).
  cbn [app]. rewrite (split_bold_go_pair _ _ _ p b) by (apply lazy_close_free; assumption).
  rewrite split_bold_go_free_all by (auto; lia).
  rewrite app_nil_r, rev_involutive. cbn [rev app].
  destruct (bold_seg_clean p) as [Hb1 Hc1]. cbn [app] in Hb1, Hc1.
  assert (Hpa : is_bold_seg a = false /\ clean_seg a = a).
  { unfold clean_seg. rewrite is_bold_seg_free by exact Ha. auto. }
  assert (Hpb : is_bold_seg b = false /\ clean_seg b = b).
  { unfold clean_seg. rewrite is_bold_seg_free by exact Hb. auto. }
  destruct Hpa as [Hpa1 Hpa2], Hpb as [Hpb1 Hpb2].
  destruct a as [|ca a'], b as [|cb b']; cbn [filter negb map is_empty app];
    rewrite ?Hb1, ?Hc1, ?Hpa1, ?Hpa2, ?Hpb1, ?Hpb2; reflexivity.
Qed.

Lemma spans_bold_pair_witness :
  spans (s_ "Built " ++ [star; star] ++ s_ "critical" ++ [star; star] ++ s_ " systems") =
  [(s_ "Built ", false); (s_ "critical", true); (s_ " systems", false)].
Proof.
  apply (spans_bold_pair (s_ "Built ") (s_ "critical") (s_ " systems"));
    reflexivity.
Defined.

(** X6: the measured tokens of [drawRichText] spell out exactly the texts of
    the spans: splitting the spans into words drops and adds nothing. *)
Theorem tokens_spell_spans W (f : font) (size : Z) (text : str) :
  concat (map ttext (tokens_of W f size text)) = concat (map fst (spans text)).
Proof.
  unfold tokens_of, spans. induction (segments text) as [|seg l IH]; [reflexivity|].
  cbn [flat_map map concat fst]. rewrite map_app, concat_app, IH. f_equal.
  rewrite map_map. cbn [ttext]. rewrite map_id. apply concat_split_ws.
Qed.

(** *** Layout invariants *)

(** [st'] is [st] with events satisfying [P] appended to the document. *)
Definition extends (P : event -> Prop) (st st' : layout) : Prop :=
  exists evs, log st' = log st ++ evs /\ Forall P evs.

Lemma extends_refl P st : extends P st st.
Proof. exists []. rewrite app_nil_r. auto. Qed.

Lemma extends_trans P a b c : extends P a b -> extends P b c -> extends P a c.
Proof.
  intros (e1 & H1 & F1) (e2 & H2 & F2). exists (e1 ++ e2).
  rewrite H2, H1, app_assoc. split; [reflexivity | apply Forall_app; auto].
Qed.

Lemma extends_impl (P Q : event -> Prop) a b :
  (forall e, P e -> Q e) -> extends P a b -> extends Q a b.
Proof. intros HPQ (e & H & F). exists e. split; [exact H | eapply Forall_impl; eauto]. Qed.

Lemma extends_set_y P a b y : extends P a b -> extends P a (set_y b y).
Proof. intros H. exact H. Qed.

Lemma extends_emit P a e : P e -> extends P a (emit a e).
Proof. intros He. exists [e]. auto. Qed.

Lemma extends_paginate P st : P AddPage -> extends P st (paginate st).
Proof.
  intros H. unfold paginate. destruct (currentY st <? margin + 2000).
  - apply extends_emit, H.
  - apply extends_refl.
Qed.

Lemma paginate_above st : margin + 2000 <= currentY (paginate st).
Proof.
  unfold paginate. destruct (currentY st <? margin + 2000) eqn:H.
  - unfold add_page, set_y. simpl. unfold page_height, margin. lia.
  - apply Z.ltb_ge in H. exact H.
Qed.

(** The fonts a run of [drawRichText] may take: the option's font, or bold. *)
Definition run_font (o : rich_opts) (e : event) : Prop :=
  match e with DrawText _ _ _ _ f _ => f = HelveticaBold \/ f = o_font o | _ => True end.

Lemma draw_runs_fonts o x st L : extends (run_font o) st (draw_runs o x st L).
Proof.
  revert x st. induction L as [|t L IH]; intros x st; cbn [draw_runs]; [apply extends_refl|].
  eapply extends_trans; [|apply IH]. apply extends_emit. simpl.
  destruct (tbold t); auto.
Qed.

Lemma drawRichText_fonts W o text st : extends (run_font o) st (drawRichText W o text st).
Proof.
  unfold drawRichText. apply extends_set_y.
  generalize (wrap rich_max_width (tokens_of W (o_font o) (o_size o) text)) as lines.
  intros lines. revert st. induction lines as [|L lines IH]; intros st; cbn [fold_left];
    [apply extends_refl|].
  eapply extends_trans; [|apply IH]. unfold place_line. apply extends_set_y.
  eapply extends_trans; [apply extends_paginate; exact I | apply draw_runs_fonts].
Qed.

Lemma fold_place_line_above o lines st :
  extends above_threshold st (fold_left (place_line o) lines st).
Proof.
  revert st. induction lines as [|L lines IH]; intros st; cbn [fold_left];
    [apply extends_refl|].
  eapply extends_trans; [|apply IH].
  destruct (place_line_spec o st L) as [_ (evs & Hl & Hf)].
  eexists. split; [exact Hl|]. apply Forall_app. split.
  - destruct (currentY st <? margin + 2000); repeat constructor.
  - eapply Forall_impl; [|exact Hf]. intros e (txt & x & f & ->). cbn [above_threshold].
    destruct (currentY st <? margin + 2000) eqn:H.
    + unfold page_height, margin. lia.
    + apply Z.ltb_ge in H. exact H.
Qed.

(** The word runs of the bullet branch on one line: at or right of [cX]. *)
Lemma draw_line_words_runs W (HW : forall f sz w, 0 <= W f sz w) y0 cX st lw :
  bullet_margin <= cX -> (currentY st = y0 \/ margin + 2000 <= currentY st) ->
  extends (bullet_run y0) st (draw_line_words W cX st lw) /\
  currentY (draw_line_words W cX st lw) = currentY st.
Proof.
  revert cX st. induction lw as [|t lw IH]; intros cX st Hx Hy; cbn [draw_line_words].
  - split; [apply extends_refl | reflexivity].
  - set (st1 := emit st _).
    destruct (IH (cX + W (tok_font t) bullet_size (ttext t)) st1) as [He Hc].
    + specialize (HW (tok_font t) bullet_size (ttext t)). lia.
    + exact Hy.
    + split; [|exact Hc]. eapply extends_trans; [|exact He].
      apply extends_emit. simpl. auto.
Qed.

Lemma bullet_flush_runs W (HW : forall f sz w, 0 <= W f sz w) y0 st lw :
  (currentY st = y0 \/ margin + 2000 <= currentY st) ->
  extends (bullet_run y0) st (bullet_flush W st lw) /\
  margin + 2000 <= currentY (bullet_flush W st lw).
Proof.
  intros Hy. unfold bullet_flush.
  destruct (draw_line_words_runs W HW y0 bullet_margin st lw (Z.le_refl _) Hy) as [He _].
  split; [|apply paginate_above].
  eapply extends_trans; [apply extends_set_y, He|]. apply extends_paginate. exact I.
Qed.

Lemma bullet_words_runs W (HW : forall f sz w, 0 <= W f sz w) y0 ts :
  forall st lw curW, (currentY st = y0 \/ margin + 2000 <= currentY st) ->
  extends (bullet_run y0) st (fst (bullet_words W st lw curW ts)) /\
  (currentY (fst (bullet_words W st lw curW ts)) = y0 \/
   margin + 2000 <= currentY (fst (bullet_words W st lw curW ts))).
Proof.
  induction ts as [|t ts IH]; intros st lw curW Hy; cbn [bullet_words].
  - split; [apply extends_refl | exact Hy].
  - destruct (breaks bullet_max_width curW t).
    + destruct (bullet_flush_runs W HW y0 st lw Hy) as [He Ha].
      destruct (IH (bullet_flush W st lw) [t] (twidth t) (or_intror Ha)) as [He' Hy'].
      split; [eapply extends_trans; eauto | exact Hy'].
    + apply IH, Hy.
Qed.

Lemma section_not_title (l : str) :
  starts_with (s_ "## ") l = true -> starts_with (s_ "# ") l = false.
Proof.
  intros H. destruct l as [|a [|b l]].
  - discriminate H.
  - change (starts_with (s_ "## ") [a]) with (Ascii.eqb "#"%char a && false) in H.
    rewrite andb_false_r in H. discriminate H.
  - change (starts_with (s_ "## ") (a :: b :: l)) with
      (Ascii.eqb "#"%char a && (Ascii.eqb "#"%char b && starts_with (s_ " ") l)) in H.
    change (starts_with (s_ "# ") (a :: b :: l)) with
      (Ascii.eqb "#"%char a && (Ascii.eqb " "%char b && starts_with [] l)).
    apply andb_prop in H as [_ H]. apply andb_prop in H as [H _].
    apply Ascii.eqb_eq in H. subst b. apply andb_false_r.
Qed.

(** X7: [drawRichText] never draws text below the 20 pt threshold above the
    bottom margin: every run it places is at a height of at least 70 pt. *)
Theorem drawRichText_above_threshold W (o : rich_opts) (text : str) (st : layout) :
  exists evs, log (drawRichText W o text st) = log st ++ evs /\
              Forall above_threshold evs.
Proof. unfold drawRichText. exact (fold_place_line_above o _ st). Qed.

(** X8: the title, section and subsection lines ([# ], [## ], [### ]) draw
    every run of their text in Helvetica-Bold, whatever their spans. *)
Theorem heading_runs_bold W (lines : list str) (i : nat) (st : layout) :
  starts_with (s_ "# ") (trim (nth i lines [])) ||
  starts_with (s_ "## ") (trim (nth i lines [])) ||
  starts_with (s_ "### ") (trim (nth i lines [])) = true ->
  exists evs, log (process_line W lines i st) = log st ++ evs /\ Forall bold_run evs.
Proof.
  intros H. unfold process_line.
  remember (trim (nth i lines [])) as line eqn:E. clear E.
  destruct line as [|c r]; [discriminate H|]. cbv beta iota.
  assert (Hb : forall o, o_font o = HelveticaBold -> forall e, run_font o e -> bold_run e).
  { intros o Ho [| txt x y sz f col | y] He; simpl in *; auto. rewrite Ho in He.
    destruct He; assumption. }
  destruct (starts_with (s_ "# ") (c :: r)) eqn:E1.
  { apply extends_set_y. eapply extends_impl; [apply (Hb title_opts eq_refl)|].
    apply drawRichText_fonts. }
  destruct (starts_with (s_ "## ") (c :: r)) eqn:E2.
  { apply extends_set_y.
    apply (extends_trans _ _ (set_y st (currentY st - 1200))); [apply extends_set_y, extends_refl|].
    eapply extends_trans.
    - eapply extends_impl; [apply (Hb section_opts eq_refl)|]. apply drawRichText_fonts.
    - apply extends_emit. exact I. }
  destruct (starts_with (s_ "### ") (c :: r)) eqn:E3.
  { eapply extends_impl; [apply (Hb subsection_opts eq_refl)|]. apply drawRichText_fonts. }
  discriminate H.
Qed.

Lemma heading_runs_bold_witness :
  exists evs, log (process_line mono [s_ "## **Experience** and skills"] 0 initial_layout) =
              log initial_layout ++ evs /\ Forall bold_run evs.
Proof. apply heading_runs_bold. vm_compute. reflexivity. Defined.

(** X9: with non-negative text widths, a bullet draws its glyph at the page
    margin on the current line, then every word run at or right of the bullet
    indent, either on that first line or at least 70 pt above the page bottom;
    it draws no rule. *)
Theorem bullet_runs_layout W (HW : forall f sz w, 0 <= W f sz w)
    (bulletContent : str) (st : layout) :
  exists evs,
    log (draw_bullet W bulletContent st) =
      log st ++ DrawText bullet_glyph margin (currentY st) 1200 Helvetica black :: evs /\
    Forall (bullet_run (currentY st)) evs.
Proof.
  unfold draw_bullet.
  set (st1 := emit st (DrawText bullet_glyph margin (currentY st) 1200 Helvetica black)).
  set (ts := tokens_of W Helvetica bullet_size bulletContent).
  destruct (bullet_words_runs W HW (currentY st) ts st1 [] 0 (or_introl eq_refl)) as [He2 Hy2].
  destruct (bullet_words W st1 [] 0 ts) as [st2 lw] eqn:E. cbn [fst] in He2, Hy2.
  destruct (draw_line_words_runs W HW (currentY st) bullet_margin st2 lw (Z.le_refl _) Hy2)
    as [He3 _].
  destruct (extends_trans _ _ _ _ He2 He3) as (evs & Hl & Hf).
  exists evs. split; [|exact Hf]. cbn [set_y log]. rewrite Hl. subst st1.
  cbn [emit log]. rewrite <- app_assoc. reflexivity.
Qed.

Lemma bullet_runs_layout_witness :
  exists evs,
    log (draw_bullet mono (s_ "Shipped **three** releases") initial_layout) =
      log initial_layout ++
      DrawText bullet_glyph margin (currentY initial_layout) 1200 Helvetica black :: evs /\
    Forall (bullet_run (currentY initial_layout)) evs.
Proof.
  apply bullet_runs_layout. intros f sz w. unfold mono.
  apply Z.div_pos; [apply Z.mul_nonneg_nonneg; lia | lia].
Defined.

(** X10: a section line ([## ]) whose text fits on one line moves down 12 pt,
    draws its runs in section blue at the (possibly new-page) height [y], draws
    its rule 8.8 pt below that baseline and leaves the cursor 28.8 pt below it. *)
Theorem section_rule_offset W (lines : list str) (i : nat) (st : layout) (L : list token) :
  starts_with (s_ "## ") (trim (nth i lines [])) = true ->
  wrap rich_max_width
    (tokens_of W HelveticaBold 1200 (replace_first (s_ "## ") (trim (nth i lines [])))) = [L] ->
  let reset := currentY st - 1200 <? margin + 2000 in
  let y := if reset then page_height - margin else currentY st - 1200 in
  exists evs,
    log (process_line W lines i st) =
      log st ++ (if reset then [AddPage] else []) ++ evs ++ [DrawLine (y - 880)] /\
    Forall (text_at y 1200 section_blue) evs /\
    currentY (process_line W lines i st) = y - 2880.
Proof.
  intros Hs Hw reset y. unfold process_line.
  remember (trim (nth i lines [])) as line eqn:E. clear E.
  destruct line as [|c r]; [discriminate Hs|]. cbv beta iota.
  rewrite (section_not_title _ Hs), Hs. unfold drawRichText.
  change (o_font section_opts) with HelveticaBold.
  change (o_size section_opts) with 1200. rewrite Hw. cbn [fold_left].
  destruct (place_line_spec section_opts (set_y st (currentY st - 1200)) L)
    as [Hy (evs & Hl & Hf)].
  cbn [set_y currentY log] in Hy, Hl, Hf. fold reset in Hy, Hl, Hf. fold y in Hy, Hf.
  exists evs. cbn [set_y emit currentY log]. rewrite Hl, Hy.
  change (o_size section_opts) with 1200 in Hf.
  change (o_color section_opts) with section_blue in Hf.
  change (line_advance (o_size section_opts)) with 1800.
  change (block_gap 1200) with 480.
  split; [|split; [exact Hf | lia]].
  rewrite <- !app_assoc. replace (y - 1800 - 480 + 1400) with (y - 880) by lia.
  reflexivity.
Qed.

Lemma section_rule_offset_witness :
  exists evs,
    log (process_line mono [s_ "## Experience"] 0 initial_layout) =
      log initial_layout ++ [] ++ evs ++ [DrawLine (77989 - 880)] /\
    Forall (text_at 77989 1200 section_blue) evs /\
    currentY (process_line mono [s_ "## Experience"] 0 initial_layout) = 77989 - 2880.
Proof.
  exact (section_rule_offset mono [s_ "## Experience"] 0 initial_layout
           [mk_tok (s_ "Experience") false 6000]
           ltac:(vm_compute; reflexivity) ltac:(vm_compute; reflexivity)).
Defined.


(** *** Editor state *)

(** X11: from edit or preview mode, [toggleView] leaves the state in sync: in
    preview mode the stored result holds the editor text, and the export takes
    the editor text, in either mode. *)
Theorem toggleView_synced (s : ui) :
  step s = 1 \/ step s = 2 ->
  preview_synced (toggleView s) /\ contentToExport (toggleView s) = inputContent s.
Proof.
  intros Hst. unfold toggleView, preview_synced, contentToExport.
  destruct (step s =? 2) eqn:H2.
  - cbn [setStep step inputContent]. split; [split; [left; reflexivity | discriminate] | reflexivity].
  - apply Z.eqb_neq in H2. assert (H1 : step s = 1) by lia.
    destruct (result s) as [r|] eqn:Hr.
    + cbn [setStep setResult step result inputContent optimizedContent].
      split; [split; [right; reflexivity | eauto]|].
      unfold or_default. destruct (is_empty (inputContent s)); reflexivity.
    + rewrite H1. split; [split; [left; reflexivity | discriminate] | reflexivity].
Qed.

Lemma toggleView_synced_witness :
  preview_synced (toggleView (setResult (Some (mk_result (s_ "# Old") [] [] 80))
                                        (editing (s_ "# New")))) /\
  contentToExport (toggleView (setResult (Some (mk_result (s_ "# Old") [] [] 80))
                                         (editing (s_ "# New")))) = s_ "# New".
Proof. apply toggleView_synced. left. reflexivity. Defined.

(** X12: from the edit view (step 1, the only view that shows the Optimize
    button) [handleOptimize] leaves a synced state whatever the service
    answers: a rejection, [null] or a result. *)
Theorem handleOptimize_synced optimize (s : ui) :
  step s = 1 -> preview_synced (handleOptimize optimize s).
Proof.
  unfold preview_synced, handleOptimize. intros H1.
  destruct (is_empty (trim (inputContent s)) || is_empty (trim (targetTitle s))).
  - cbn. split; [left; exact H1 | rewrite H1; discriminate].
  - destruct (optimize _) as [[r|]|m]; cbn.
    + split; [right; reflexivity | eauto].
    + split; [left; exact H1 | rewrite H1; discriminate].
    + split; [left; exact H1 | rewrite H1; discriminate].
Qed.

Lemma handleOptimize_synced_witness :
  let s := mk_ui 1 false false None (s_ "# Jane") (s_ "Engineer") [] MID [] None in
  step (handleOptimize (fun _ => Resolved None) s) = 1 /\
  preview_synced (handleOptimize (fun _ => Resolved None) s).
Proof.
  intros s. split; [reflexivity|].
  apply handleOptimize_synced. reflexivity.
Defined.

(** X13: in a synced state the PDF export takes exactly the editor text. *)
Theorem export_is_editor_text (s : ui) :
  preview_synced s -> contentToExport s = inputContent s.
Proof.
  unfold preview_synced, contentToExport. intros [[H1|H2] Hs].
  - rewrite H1. reflexivity.
  - rewrite H2. cbn. destruct (Hs H2) as (r & -> & Ho). rewrite Ho.
    unfold or_default. destruct (is_empty (inputContent s)); reflexivity.
Qed.

Lemma export_is_editor_text_witness :
  contentToExport (setStep 2 (setResult (Some (mk_result (s_ "# Jane") [] [] 90))
                                        (editing (s_ "# Jane")))) = s_ "# Jane".
Proof.
  apply export_is_editor_text. split; [right; reflexivity|].
  intros _. eexists. split; reflexivity.
Defined.

(** X14: when the service resolves with a result object, [handleOptimize] stores the result, loads
    its text into the editor, switches to preview, clears the error and the
    loading flag and keeps the form fields; the other version of the component
    stores the result and switches to preview but keeps the editor text. *)
Theorem handleOptimize_success optimize optimize_v0 (s : ui) (r r0 : opt_result) :
  is_empty (trim (inputContent s)) || is_empty (trim (targetTitle s)) = false ->
  optimize (mk_data (inputContent s) (targetTitle s) (seniorityLevel s)
                    (Some (jobDescription s)) (Some (context s))) = Resolved (Some r) ->
  optimize_v0 (mk_data (inputContent s) (targetTitle s) (seniorityLevel s)
                       None (Some (context s))) = Resolved (Some r0) ->
  let s' := handleOptimize optimize s in
  let s0 := handleOptimize_v0 optimize_v0 s in
  (result s' = Some r /\ inputContent s' = optimizedContent r /\ step s' = 2 /\
   error s' = None /\ loading s' = false /\ targetTitle s' = targetTitle s /\
   jobDescription s' = jobDescription s /\ seniorityLevel s' = seniorityLevel s /\
   context s' = context s) /\
  (result s0 = Some r0 /\ inputContent s0 = inputContent s /\ step s0 = 2 /\
   error s0 = None /\ loading s0 = false).
Proof.
  intros Hv Hr Hr0 s' s0. subst s' s0. unfold handleOptimize, handleOptimize_v0.
  rewrite Hv. apply orb_false_iff in Hv as [Hi Ht]. rewrite Hi, Ht.
  cbn [setError setLoading inputContent targetTitle seniorityLevel jobDescription context].
  rewrite Hr, Hr0. cbn. repeat split.
Qed.

Lemma handleOptimize_success_witness :
  let s := mk_ui 1 false false None (s_ "# Jane") (s_ "Engineer") [] MID [] None in
  let r := mk_result (s_ "# Jane Doe") [s_ "tightened"] [] 88 in
  (result (handleOptimize (fun _ => Resolved (Some r)) s) = Some r /\
   inputContent (handleOptimize (fun _ => Resolved (Some r)) s) = optimizedContent r /\
   step (handleOptimize (fun _ => Resolved (Some r)) s) = 2 /\
   error (handleOptimize (fun _ => Resolved (Some r)) s) = None /\
   loading (handleOptimize (fun _ => Resolved (Some r)) s) = false /\
   targetTitle (handleOptimize (fun _ => Resolved (Some r)) s) = targetTitle s /\
   jobDescription (handleOptimize (fun _ => Resolved (Some r)) s) = jobDescription s /\
   seniorityLevel (handleOptimize (fun _ => Resolved (Some r)) s) = seniorityLevel s /\
   context (handleOptimize (fun _ => Resolved (Some r)) s) = context s) /\
  (result (handleOptimize_v0 (fun _ => Resolved (Some r)) s) = Some r /\
   inputContent (handleOptimize_v0 (fun _ => Resolved (Some r)) s) = inputContent s /\
   step (handleOptimize_v0 (fun _ => Resolved (Some r)) s) = 2 /\
   error (handleOptimize_v0 (fun _ => Resolved (Some r)) s) = None /\
   loading (handleOptimize_v0 (fun _ => Resolved (Some r)) s) = false).
Proof.
  intros s r.
  exact (handleOptimize_success (fun _ => Resolved (Some r)) (fun _ => Resolved (Some r)) s r r
           eq_refl eq_refl eq_refl).
Defined.

(** X15: a blank resume or target title stops [handleOptimize] before the
    service is called: only the error changes, to the same message whatever the
    service would answer. The other version checks the resume first. *)
Theorem handleOptimize_validation optimize optimize_v0 (s : ui) :
  is_empty (trim (inputContent s)) || is_empty (trim (targetTitle s)) = true ->
  handleOptimize optimize s =
    setError (Some (s_ "Resume text and target job title are required.")) s /\
  handleOptimize_v0 optimize_v0 s =
    setError (Some (if is_empty (trim (inputContent s))
                    then s_ "Please provide your current resume content."
                    else s_ "Please specify a target job title.")) s.
Proof.
  intros H. unfold handleOptimize, handleOptimize_v0. rewrite H. split; [reflexivity|].
  destruct (is_empty (trim (inputContent s))); [reflexivity|].
  simpl in H. rewrite H. reflexivity.
Qed.

Lemma handleOptimize_validation_witness :
  handleOptimize (fun _ => Rejected []) (editing (s_ "  ")) =
    setError (Some (s_ "Resume text and target job title are required."))
             (editing (s_ "  ")) /\
  handleOptimize_v0 (fun _ => Rejected []) (editing (s_ "  ")) =
    setError (Some (s_ "Please provide your current resume content.")) (editing (s_ "  ")).
Proof. exact (handleOptimize_validation _ _ (editing (s_ "  ")) eq_refl). Defined.

(** X16: an upload in [src/App.tsx] either replaces the editor text with the
    extracted text (whatever it is, blank included) and clears the error, or
    keeps the editor text and shows the one fixed failure message. *)
Theorem handleFileUpload_outcome (f : upload) (s : ui) :
  (exists t, handleFileUpload (Some f) s = setInputContent t (setError None s)) \/
  handleFileUpload (Some f) s =
    setError (Some (s_ "Failed to process file. Ensure it is a valid PDF, DOCX, or text file.")) s.
Proof.
  unfold handleFileUpload.
  destruct (if ends_with (s_ ".pdf") (to_lower (fname f)) then pdf_text f
            else if ends_with (s_ ".docx") (to_lower (fname f)) then docx_text f
            else Resolved (decoded_text f)) as [t|m].
  - left. exists t. reflexivity.
  - right. reflexivity.
Qed.

(** X17: an upload in the other version of the component always ends with the
    parsing flag off, and either loads a text that is not blank with no error,
    or keeps the editor text and sets an error. *)
Theorem handleFileUpload_v0_outcome (f : upload) (s : ui) :
  let s' := handleFileUpload_v0 (Some f) s in
  fileParsing s' = false /\
  ((error s' = None /\ trim (inputContent s') <> []) \/
   (inputContent s' = inputContent s /\ error s' <> None)).
Proof.
  intros s'. subst s'. unfold handleFileUpload_v0.
  destruct (if ends_with (s_ ".pdf") (to_lower (fname f)) then pdf_text f
            else if ends_with (s_ ".docx") (to_lower (fname f)) then docx_text f
            else if ends_with (s_ ".txt") (to_lower (fname f)) ||
                    ends_with (s_ ".md") (to_lower (fname f))
                 then Resolved (decoded_text f)
                 else Rejected (s_ "Unsupported file type. Please upload PDF, DOCX, TXT, or MD."))
    as [t|m].
  - destruct (is_empty (trim t)) eqn:E;
      cbn [setFileParsing setError setInputContent fileParsing error inputContent].
    + split; [reflexivity | right; split; [reflexivity | discriminate]].
    + split; [reflexivity | left; split; [reflexivity|]].
      intros Ht. rewrite Ht in E. discriminate E.
  - cbn. split; [reflexivity | right; split; [reflexivity | discriminate]].
Qed.

Lemma ends_with_suffix (p x : str) : ends_with p (x ++ p) = true.
Proof. unfold ends_with. rewrite rev_app_distr. apply starts_with_app. Qed.

(** X18: the extension test ignores case: a name ending in [.pdf] in any mix
    of cases goes to the PDF extractor, whose outcome alone decides the upload. *)
Theorem upload_pdf_any_case (f : upload) (s : ui) (base ext : str) :
  fname f = base ++ ext -> to_lower ext = s_ ".pdf" ->
  handleFileUpload (Some f) s =
    match pdf_text f with
    | Resolved t => setInputContent t (setError None s)
    | Rejected _ =>
        setError (Some (s_ "Failed to process file. Ensure it is a valid PDF, DOCX, or text file.")) s
    end.
Proof.
  intros Hn He. unfold handleFileUpload.
  assert (Hl : ends_with (s_ ".pdf") (to_lower (fname f)) = true).
  { rewrite Hn. unfold to_lower. rewrite map_app. fold (to_lower ext). rewrite He.
    apply ends_with_suffix. }
  rewrite Hl. destruct (pdf_text f); reflexivity.
Qed.

Lemma upload_pdf_any_case_witness :
  handleFileUpload (Some (mk_upload (s_ "CV.PdF") (Resolved (s_ "Jane Doe")) (Rejected [])
                                    (s_ "%PDF-1.7")))
                   (editing []) =
  setInputContent (s_ "Jane Doe") (setError None (editing [])).
Proof.
  exact (upload_pdf_any_case
           (mk_upload (s_ "CV.PdF") (Resolved (s_ "Jane Doe")) (Rejected []) (s_ "%PDF-1.7"))
           (editing []) (s_ "CV") (s_ ".PdF") eq_refl eq_refl).
Defined.

(** X19: when the service resolves with [null], [handleOptimize] stores
    [null] as the result, then fails reading [optimizedContent] and shows that
    error; the step and the editor text stay as they were and loading ends, so
    a call made from the preview (step 2) leaves a state that is not synced.
    The other version stores [null], clears the error and switches to the
    preview, which is never a synced state. *)
Theorem handleOptimize_null optimize optimize_v0 (s : ui) :
  is_empty (trim (inputContent s)) || is_empty (trim (targetTitle s)) = false ->
  optimize (mk_data (inputContent s) (targetTitle s) (seniorityLevel s)
                    (Some (jobDescription s)) (Some (context s))) = Resolved None ->
  optimize_v0 (mk_data (inputContent s) (targetTitle s) (seniorityLevel s)
                       None (Some (context s))) = Resolved None ->
  let s' := handleOptimize optimize s in
  let s0 := handleOptimize_v0 optimize_v0 s in
  (result s' = None /\ error s' = Some null_read_error /\ step s' = step s /\
   inputContent s' = inputContent s /\ loading s' = false /\
   (step s = 2 -> ~ preview_synced s')) /\
  (result s0 = None /\ error s0 = None /\ step s0 = 2 /\
   inputContent s0 = inputContent s /\ loading s0 = false /\ ~ preview_synced s0).
Proof.
  intros Hv Hr Hr0 s' s0. subst s' s0. unfold handleOptimize, handleOptimize_v0.
  rewrite Hv. apply orb_false_iff in Hv as [Hi Ht]. rewrite Hi, Ht.
  cbn [setError setLoading inputContent targetTitle seniorityLevel jobDescription context].
  rewrite Hr, Hr0. cbn.
  split; (repeat split);
    try (intros H2 [_ Hs]; destruct (Hs H2) as (r & Hr' & _); discriminate Hr');
    try (intros [_ Hs]; destruct (Hs eq_refl) as (r & Hr' & _); discriminate Hr').
Qed.

Lemma handleOptimize_null_witness :
  let s := mk_ui 2 false false None (s_ "# Jane") (s_ "Engineer") []
                 MID [] (Some (mk_result (s_ "# Jane") [] [] 90)) in
  preview_synced s /\
  result (handleOptimize (fun _ => Resolved None) s) = None /\
  step (handleOptimize (fun _ => Resolved None) s) = 2 /\
  ~ preview_synced (handleOptimize (fun _ => Resolved None) s).
Proof.
  intros s.
  destruct (handleOptimize_null (fun _ => Resolved None) (fun _ => Resolved None) s
              eq_refl eq_refl eq_refl) as [(H1 & _ & H3 & _ & _ & H6) _].
  split; [split; [right; reflexivity | intros _; eexists; split; reflexivity]|].
  split; [exact H1 | split; [exact H3 | exact (H6 eq_refl)]].
Defined.
